(** * Apriori frequent itemsets and association rules (question_2.py)

    Shallow embedding of [src/question_2.py].

    - An item is a [nat] (the code only needs items to be totally ordered);
      a transaction is a Python [set] of items, here a [gset nat], and it is
      iterated in the order of [elements].
    - A [defaultdict(int)] is a [gmap K nat]; reading [d[k]] is [lookup0 d k]
      (0 when absent) and [d[k] += 1] is [incr d k].  Reading an absent key of
      a defaultdict also inserts a 0 entry; no value returned to a caller
      depends on that insertion, so it is not modelled.
    - Python [set]s of itemsets are [gset]s.
    - Confidence [sup / den] is a Python float division; it is modelled as the
      exact rational [Qred (sup # den)], and a zero denominator raises
      [ZeroDivisionError], modelled by [None].
    - [list.sort(key=...)] is a stable sort by the key; it is modelled by a
      stable insertion sort.
    - The module constants [MIN_SUPPORT] and [TOP_K] are read by the functions
      at call time; they are parameters [min_support] and [top_k] of the
      model, instantiated with the source's values 100 and 5. *)

From Stdlib Require Import QArith Sorting.Sorted Sorting.Permutation.
From stdpp Require Import base gmap sets list.

(* ------------------------------------------------------------------ *)
(** ** Python helpers *)

(** [d[k]] on a [defaultdict(int)]. *)
Definition lookup0 {K} `{Countable K} (m : gmap K nat) (k : K) : nat :=
  default 0 (m !! k).

(** [d[k] += 1] on a [defaultdict(int)]. *)
Definition incr {K} `{Countable K} (m : gmap K nat) (k : K) : gmap K nat :=
  <[k := lookup0 m k + 1]> m.

(** [itertools.combinations(l, 2)]. *)
Fixpoint pairs_of {A} (l : list A) : list (A * A) :=
  match l with
  | [] => []
  | x :: r => map (fun y => (x, y)) r ++ pairs_of r
  end.

(** [itertools.combinations(l, 3)]. *)
Fixpoint triples_of {A} (l : list A) : list (A * A * A) :=
  match l with
  | [] => []
  | x :: r => map (fun yz => (x, yz.1, yz.2)) (pairs_of r) ++ triples_of r
  end.

(** Stable insertion sort by a boolean "key less or equal" test: the element
    inserted (which comes first in the input) goes before every element whose
    key is not strictly smaller, as Python's stable [sort] keeps it. *)
Section Isort.
Context {A : Type} (leb : A -> A -> bool).

Fixpoint insert_by (x : A) (l : list A) : list A :=
  match l with
  | [] => [x]
  | y :: r => if leb x y then x :: y :: r else y :: insert_by x r
  end.

Definition isort (l : list A) : list A := fold_right insert_by [] l.
End Isort.

(** [sorted(xs)] on items. *)
Definition sorted (l : list nat) : list nat := isort Nat.leb l.

(** [l[:k]] for a Python integer [k]: a negative bound counts from the end. *)
Definition py_take {A} (k : Z) (l : list A) : list A :=
  if (0 <=? k)%Z then firstn (Z.to_nat k) l
  else firstn (length l - Z.to_nat (- k)) l.

(** [num / den] on Python ints: [ZeroDivisionError] when [den = 0]. *)
Definition py_div (num den : nat) : option Q :=
  if Nat.eqb den 0 then None
  else Some (Qred (Z.of_nat num # Pos.of_nat den)).

(** The frequency test [c >= MIN_SUPPORT]. *)
Definition frequent (min_support : Z) (c : nat) : bool :=
  (min_support <=? Z.of_nat c)%Z.

(* ------------------------------------------------------------------ *)
(** ** Rules *)

(** A rule of part (d): [(conf, lhs, rhs, sup_xy)]. *)
Record rule_d := RuleD { conf_d : Q; lhs_d : nat; rhs_d : nat; sup_d : nat }.

(** A rule of part (e): [(conf, (lhs1, lhs2), rhs, sup_xyz)]. *)
Record rule_e := RuleE { conf_e : Q; lhs_e : nat * nat; rhs_e : nat; sup_e : nat }.

(** Key order of part (d): [key=lambda r: (-r[0], r[1], r[2])], as a
    "key of [r1] <= key of [r2]" test on Python tuples. *)
Definition rule_leb_d (r1 r2 : rule_d) : bool :=
  match Qcompare (conf_d r2) (conf_d r1) with
  | Lt => true
  | Gt => false
  | Eq =>
      match Nat.compare (lhs_d r1) (lhs_d r2) with
      | Lt => true
      | Gt => false
      | Eq => Nat.leb (rhs_d r1) (rhs_d r2)
      end
  end.

(** Key order of part (e): [key=lambda r: (-r[0], r[1][0], r[1][1], r[2])]. *)
Definition rule_leb_e (r1 r2 : rule_e) : bool :=
  match Qcompare (conf_e r2) (conf_e r1) with
  | Lt => true
  | Gt => false
  | Eq =>
      match Nat.compare (lhs_e r1).1 (lhs_e r2).1 with
      | Lt => true
      | Gt => false
      | Eq =>
          match Nat.compare (lhs_e r1).2 (lhs_e r2).2 with
          | Lt => true
          | Gt => false
          | Eq => Nat.leb (rhs_e r1) (rhs_e r2)
          end
      end
  end.

(* ------------------------------------------------------------------ *)
(** ** The pipeline, for a given configuration *)

Section Apriori.
Variable min_support : Z.
Variable top_k : Z.

(** [apriori_L1]. *)
Definition apriori_L1 (transactions : list (gset nat)) : gmap nat nat * list nat :=
  let item_sup :=
    fold_left (fun m (t : gset nat) => fold_left incr (elements t) m)
      transactions ∅ in
  let L1 :=
    sorted (map_to_list
      (filter (fun xc : nat * nat => frequent min_support xc.2 = true) item_sup)).*1 in
  (item_sup, L1).

(** [C2] inside [apriori_L2]. *)
Definition C2_of (L1 : list nat) : gset (nat * nat) := list_to_set (pairs_of L1).

(** [ft = sorted([x for x in t if x in L1_set])]. *)
Definition filtered_items (L1 : list nat) (t : gset nat) : list nat :=
  sorted (filter (fun x => x ∈@{gset nat} list_to_set L1) (elements t)).

(** The counting scan of [apriori_L2]. *)
Definition count_pairs (L1 : list nat) (transactions : list (gset nat))
  : gmap (nat * nat) nat :=
  let C2 := C2_of L1 in
  fold_left (fun m t =>
    fold_left (fun m p => if decide (p ∈ C2) then incr m p else m)
      (pairs_of (filtered_items L1 t)) m)
    transactions ∅.

(** [apriori_L2]. *)
Definition apriori_L2 (transactions : list (gset nat)) (L1 : list nat)
  : gmap (nat * nat) nat * gset (nat * nat) :=
  let pair_sup := count_pairs L1 transactions in
  let L2 := dom (filter (fun pc : (nat * nat) * nat => frequent min_support pc.2 = true)
                  pair_sup) in
  (pair_sup, L2).

(** The index [by_first] of [apriori_C3_from_L2]. *)
Definition by_first_of (L2 : gset (nat * nat)) : gmap nat (gset nat) :=
  fold_left (fun m (ab : nat * nat) =>
    <[ab.1 := {[ab.2]} ∪ default ∅ (m !! ab.1)]> m) (elements L2) ∅.

(** [apriori_C3_from_L2]. *)
Definition apriori_C3_from_L2 (L2 : gset (nat * nat)) : gset (nat * nat * nat) :=
  fold_left (fun C3 (abs : nat * gset nat) =>
    let a := abs.1 in
    fold_left (fun C3 (bc : nat * nat) =>
      let b := bc.1 in let c := bc.2 in
      if decide ((a, b) ∈ L2 /\ (a, c) ∈ L2 /\ (b, c) ∈ L2)
      then {[(a, b, c)]} ∪ C3 else C3)
      (pairs_of (sorted (elements abs.2))) C3)
    (map_to_list (by_first_of L2)) ∅.

(** The counting scan of [apriori_L3]; the last component counts the
    iterations of [for t in transactions]. *)
Definition count_triples (C3 : gset (nat * nat * nat)) (transactions : list (gset nat))
  : gmap (nat * nat * nat) nat * nat :=
  fold_left (fun ms t =>
    (fold_left (fun m tri => if decide (tri ∈ C3) then incr m tri else m)
       (triples_of (sorted (elements t))) ms.1, S ms.2))
    transactions (∅, 0).

(** [apriori_L3], with the number of transactions scanned. *)
Definition apriori_L3_run (transactions : list (gset nat)) (C3 : gset (nat * nat * nat))
  : gmap (nat * nat * nat) nat * gset (nat * nat * nat) * nat :=
  if decide (C3 = ∅) then (∅, ∅, 0)
  else
    let '(triple_sup, scanned) := count_triples C3 transactions in
    (triple_sup,
     dom (filter (fun tc : (nat * nat * nat) * nat => frequent min_support tc.2 = true)
            triple_sup),
     scanned).

Definition apriori_L3 (transactions : list (gset nat)) (C3 : gset (nat * nat * nat))
  : gmap (nat * nat * nat) nat * gset (nat * nat * nat) :=
  (apriori_L3_run transactions C3).1.

(** The rules appended by the loop of [top5_part_d], [L2] being iterated
    in the order of the list. *)
Fixpoint rules_d (item_sup : gmap nat nat) (pair_sup : gmap (nat * nat) nat)
    (L2 : list (nat * nat)) : option (list rule_d) :=
  match L2 with
  | [] => Some []
  | (a, b) :: L2' =>
      let sup_ab := lookup0 pair_sup (a, b) in
      c1 ← py_div sup_ab (lookup0 item_sup a);
      c2 ← py_div sup_ab (lookup0 item_sup b);
      rest ← rules_d item_sup pair_sup L2';
      Some (RuleD c1 a b sup_ab :: RuleD c2 b a sup_ab :: rest)
  end.

(** [top5_part_d]. *)
Definition top5_part_d (item_sup : gmap nat nat) (pair_sup : gmap (nat * nat) nat)
    (L2 : list (nat * nat)) : option (list rule_d) :=
  rules ← rules_d item_sup pair_sup L2;
  Some (py_take top_k (isort rule_leb_d rules)).

(** The rules appended by the loop of [top5_part_e]. *)
Fixpoint rules_e (pair_sup : gmap (nat * nat) nat) (triple_sup : gmap (nat * nat * nat) nat)
    (L3 : list (nat * nat * nat)) : option (list rule_e) :=
  match L3 with
  | [] => Some []
  | (x, y, z) :: L3' =>
      let sup_xyz := lookup0 triple_sup (x, y, z) in
      c1 ← py_div sup_xyz (lookup0 pair_sup (x, y));
      c2 ← py_div sup_xyz (lookup0 pair_sup (x, z));
      c3 ← py_div sup_xyz (lookup0 pair_sup (y, z));
      rest ← rules_e pair_sup triple_sup L3';
      Some (RuleE c1 (x, y) z sup_xyz :: RuleE c2 (x, z) y sup_xyz
            :: RuleE c3 (y, z) x sup_xyz :: rest)
  end.

(** [top5_part_e]. *)
Definition top5_part_e (pair_sup : gmap (nat * nat) nat)
    (triple_sup : gmap (nat * nat * nat) nat)
    (L3 : list (nat * nat * nat)) : option (list rule_e) :=
  rules ← rules_e pair_sup triple_sup L3;
  Some (py_take top_k (isort rule_leb_e rules)).

(** [main] without the printing: the two ranked rule lists. *)
Definition pipeline (transactions : list (gset nat))
  : option (list rule_d * list rule_e) :=
  let '(item_sup, L1) := apriori_L1 transactions in
  let '(pair_sup, L2) := apriori_L2 transactions L1 in
  let C3 := apriori_C3_from_L2 L2 in
  let '(triple_sup, L3) := apriori_L3 transactions C3 in
  d_rules ← top5_part_d item_sup pair_sup (elements L2);
  e_rules ← top5_part_e pair_sup triple_sup (elements L3);
  Some (d_rules, e_rules).
End Apriori.

(** The source's configuration. *)
Definition MIN_SUPPORT : Z := 100.
Definition TOP_K : Z := 5.

(** The scenario of the spec, with the threshold lowered to 2. *)
Definition scenario : list (gset nat) :=
  [ {[1; 2; 3]}; {[1; 2]}; {[1; 3]}; {[2; 3]}; {[1; 2; 3]} ].

(* ------------------------------------------------------------------ *)
(** ** Support recomputed by a direct scan *)

(** Number of occurrences of [k] in [l]. *)
Fixpoint cnt {K} `{EqDecision K} (k : K) (l : list K) : nat :=
  match l with
  | [] => 0
  | y :: r => (if decide (y = k) then 1 else 0) + cnt k r
  end.

(** Number of transactions containing item [x]. *)
Definition support_item (x : nat) (transactions : list (gset nat)) : nat :=
  length (List.filter (fun t => bool_decide (x ∈ t)) transactions).

(** Number of transactions containing both items of [p]. *)
Definition support_pair (p : nat * nat) (transactions : list (gset nat)) : nat :=
  length (List.filter (fun t => bool_decide (p.1 ∈ t /\ p.2 ∈ t)) transactions).

(** Number of transactions containing the three items of [tri]. *)
Definition support_triple (tri : nat * nat * nat) (transactions : list (gset nat)) : nat :=
  length (List.filter (fun t => bool_decide (tri.1.1 ∈ t /\ tri.1.2 ∈ t /\ tri.2 ∈ t))
            transactions).

(* ------------------------------------------------------------------ *)
(** ** The ranking as the spec words it *)

(** Part (d): [r1] ranks before (or with) [r2]: higher confidence first,
    then smaller LHS item, then smaller RHS item. *)
Definition ranked_before_d (r1 r2 : rule_d) : Prop :=
  (conf_d r2 < conf_d r1)%Q \/
  ((conf_d r2 == conf_d r1)%Q /\
   (lhs_d r1 < lhs_d r2 \/ (lhs_d r1 = lhs_d r2 /\ rhs_d r1 <= rhs_d r2))).

(** Part (e): higher confidence first, then the LHS pair compared
    lexicographically, then smaller RHS item. *)
Definition ranked_before_e (r1 r2 : rule_e) : Prop :=
  (conf_e r2 < conf_e r1)%Q \/
  ((conf_e r2 == conf_e r1)%Q /\
   ((lhs_e r1).1 < (lhs_e r2).1 \/
    ((lhs_e r1).1 = (lhs_e r2).1 /\
     ((lhs_e r1).2 < (lhs_e r2).2 \/
      ((lhs_e r1).2 = (lhs_e r2).2 /\ rhs_e r1 <= rhs_e r2))))).

(** The counting scans written as one flat list per transaction. *)

(** The pairs counted for one transaction. *)
Definition pair_scan (L1 : list nat) (t : gset nat) : list (nat * nat) :=
  List.filter (fun p => bool_decide (p ∈ C2_of L1)) (pairs_of (filtered_items L1 t)).

(** The triples counted for one transaction. *)
Definition triple_scan (C3 : gset (nat * nat * nat)) (t : gset nat) : list (nat * nat * nat) :=
  List.filter (fun tri => bool_decide (tri ∈ C3)) (triples_of (sorted (elements t))).

(* ------------------------------------------------------------------ *)
(** ** [load_transactions] on the decoded text of the file *)

(** [open(path, "r", encoding="utf-8")] gives the text of the file; it is
    modelled as the list of code points it decodes to, and a Python [str]
    item as a list of code points. *)

(** [str.isspace] on one code point: the whitespace that [str.strip()] and
    [str.split()] remove. *)
Definition py_isspace (c : N) : bool :=
  (N.leb 9 c && N.leb c 13) || (N.leb 28 c && N.leb c 32) ||
  N.eqb c 133 || N.eqb c 160 || N.eqb c 5760 || (N.leb 8192 c && N.leb c 8202) ||
  N.eqb c 8232 || N.eqb c 8233 || N.eqb c 8239 || N.eqb c 8287 || N.eqb c 12288.

(** Universal newlines of text mode: ["\r\n"] and a lone ["\r"] are read as
    ["\n"]. [pending_cr] says the previous code point was a ["\r"], whose
    ["\n"] has already been produced. *)
Fixpoint translate_newlines (pending_cr : bool) (s : list N) : list N :=
  match s with
  | [] => []
  | c :: r =>
      if N.eqb c 13 then 10%N :: translate_newlines true r
      else if pending_cr && N.eqb c 10 then translate_newlines false r
      else c :: translate_newlines false r
  end.

(** [for line in f]: the lines of the text, each with its ["\n"]; the last
    one has none when the text does not end in ["\n"]. [cur] is the line
    read so far, reversed. *)
Fixpoint file_lines (cur : list N) (s : list N) : list (list N) :=
  match s with
  | [] => match cur with [] => [] | _ => [rev cur] end
  | c :: r =>
      if N.eqb c 10 then rev (c :: cur) :: file_lines [] r
      else file_lines (c :: cur) r
  end.

(** [str.lstrip()]. *)
Fixpoint lstrip (s : list N) : list N :=
  match s with
  | [] => []
  | c :: r => if py_isspace c then lstrip r else s
  end.

(** [str.strip()]: the leading, then the trailing whitespace removed. *)
Definition py_strip (s : list N) : list N := rev (lstrip (rev (lstrip s))).

(** [str.split()]: the maximal runs of non-whitespace code points; [cur]
    is the run read so far, reversed. *)
Fixpoint split_ws (cur : list N) (s : list N) : list (list N) :=
  match s with
  | [] => match cur with [] => [] | _ => [rev cur] end
  | c :: r =>
      if py_isspace c then
        match cur with [] => split_ws [] r | _ => rev cur :: split_ws [] r end
      else split_ws (c :: cur) r
  end.

Definition py_split (s : list N) : list (list N) := split_ws [] s.

(** The body of the loop of [load_transactions]. *)
Definition load_step (transactions : list (gset (list N))) (line : list N)
  : list (gset (list N)) :=
  let line := py_strip line in
  match line with
  | [] => transactions
  | _ => transactions ++ [list_to_set (py_split line)]
  end.

(** [load_transactions], given the decoded text of the file. *)
Definition load_transactions (text : list N) : list (gset (list N)) :=
  fold_left load_step (file_lines [] (translate_newlines false text)) [].

(** A file written with one transaction per line: its items separated by
    one space, every line ended by [eol]. *)
Fixpoint join_words (ws : list (list N)) : list N :=
  match ws with
  | [] => []
  | [w] => w
  | w :: r => w ++ 32%N :: join_words r
  end.

Definition render_transactions (eol : list N) (rows : list (list (list N))) : list N :=
  concat (map (fun row => join_words row ++ eol) rows).

(* ------------------------------------------------------------------ *)
(** ** Insertion sort: a sorted permutation *)

Section IsortFacts.
Context {A : Type} (leb : A -> A -> bool).
Hypothesis leb_total : forall a b, leb a b = false -> leb b a = true.
Hypothesis leb_trans : forall a b c, leb a b = true -> leb b c = true -> leb a c = true.

Let R (a b : A) : Prop := leb a b = true.

Lemma insert_by_perm x l : Permutation (insert_by leb x l) (x :: l).
Proof.
  induction l as [|y r IH]; simpl; [done|].
  destruct (leb x y); [done|].
  rewrite IH. apply perm_swap.
Qed.

Lemma isort_perm l : Permutation (isort leb l) l.
Proof.
  induction l as [|x r IH]; simpl; [done|].
  rewrite insert_by_perm. by rewrite IH.
Qed.

Lemma insert_by_sorted x l : Sorted R l -> Sorted R (insert_by leb x l).
Proof.
  induction 1 as [|y r Hr IH Hhd]; simpl; [by repeat constructor|].
  destruct (leb x y) eqn:E.
  - constructor; [by constructor|]. constructor. exact E.
  - constructor; [exact IH|].
    assert (Hyx : R y x) by (apply leb_total; exact E).
    destruct r as [|z r']; simpl; [by constructor|].
    destruct (leb x z); constructor; [exact Hyx|].
    inversion Hhd; subst; assumption.
Qed.

Lemma isort_sorted l : Sorted R (isort leb l).
Proof. induction l; simpl; [constructor|]. by apply insert_by_sorted. Qed.

Lemma isort_strongly_sorted l : StronglySorted R (isort leb l).
Proof.
  apply Sorted_StronglySorted; [|apply isort_sorted].
  intros a b c; apply leb_trans.
Qed.

(** Sorted permutations of each other are equal, when two elements with
    equal keys are equal. *)
Lemma strongly_sorted_perm_eq l1 l2 :
  (forall a b, In a l1 -> In b l1 -> R a b -> R b a -> a = b) ->
  StronglySorted R l1 -> StronglySorted R l2 -> Permutation l1 l2 -> l1 = l2.
Proof.
  revert l2. induction l1 as [|x r1 IH]; intros l2 Hanti S1 S2 HP.
  - symmetry. by apply Permutation_nil.
  - destruct l2 as [|y r2]; [by apply Permutation_length in HP|].
    inversion S1 as [|? ? S1' F1]; subst.
    inversion S2 as [|? ? S2' F2]; subst.
    assert (Hxy : x = y).
    { destruct (Permutation_in x HP (or_introl eq_refl)) as [->|Hx]; [done|].
      assert (Hy : In y (x :: r1)) by (apply (Permutation_in y (Permutation_sym HP)); by left).
      destruct Hy as [->|Hy]; [done|].
      apply Hanti; [by left|by right|..].
      - rewrite List.Forall_forall in F1. by apply F1.
      - rewrite List.Forall_forall in F2. by apply F2. }
    subst y. f_equal. apply IH; auto.
    + intros a b Ha Hb. apply Hanti; by right.
    + by apply Permutation_cons_inv in HP.
Qed.

Lemma isort_perm_eq l1 l2 :
  (forall a b, In a l1 -> In b l1 -> R a b -> R b a -> a = b) ->
  Permutation l1 l2 -> isort leb l1 = isort leb l2.
Proof.
  intros Hanti HP. apply strongly_sorted_perm_eq;
    [|apply isort_strongly_sorted..|].
  - intros a b Ha Hb. apply Hanti.
    + by apply (Permutation_in a (isort_perm l1)).
    + by apply (Permutation_in b (isort_perm l1)).
  - by rewrite !isort_perm.
Qed.

Lemma strongly_sorted_split l1 l2 :
  StronglySorted R (l1 ++ l2) ->
  StronglySorted R l1 /\ (forall a b, In a l1 -> In b l2 -> R a b).
Proof.
  induction l1 as [|x r IH]; simpl; intros SS; [split; [constructor|done]|].
  inversion SS as [|? ? SS' F]; subst. destruct (IH SS') as [S1 H].
  rewrite List.Forall_forall in F. split.
  - constructor; [done|]. apply List.Forall_forall. intros y Hy. apply F, in_or_app. by left.
  - intros a b [->|Ha] Hb; [apply F, in_or_app; by right|by apply H].
Qed.

(** Top-k selection from the sorted list: the first [k] are a prefix of a
    permutation of the input, and no element left out has a smaller key. *)
Lemma isort_take k l :
  let res := firstn k (isort leb l) in
  let rest := skipn k (isort leb l) in
  Permutation (res ++ rest) l /\ length res = Nat.min k (length l) /\
  Sorted R res /\ (forall r r', In r res -> In r' rest -> R r r').
Proof.
  simpl. pose proof (isort_strongly_sorted l) as SS.
  split; [rewrite firstn_skipn; apply isort_perm|].
  split; [rewrite length_firstn, (Permutation_length (isort_perm l)); lia|].
  rewrite <- (firstn_skipn k (isort leb l)) in SS.
  apply strongly_sorted_split in SS as [S1 Hlr].
  split; [by apply StronglySorted_Sorted|]. exact Hlr.
Qed.
End IsortFacts.

Lemma nat_leb_total a b : Nat.leb a b = false -> Nat.leb b a = true.
Proof. rewrite Nat.leb_gt, Nat.leb_le. lia. Qed.

Lemma nat_leb_trans a b c : Nat.leb a b = true -> Nat.leb b c = true -> Nat.leb a c = true.
Proof. rewrite !Nat.leb_le. lia. Qed.

Lemma sorted_perm l : Permutation (sorted l) l.
Proof. apply isort_perm. Qed.

Lemma sorted_in x l : In x (sorted l) <-> In x l.
Proof. split; apply Permutation_in; [|symmetry]; apply sorted_perm. Qed.

(** [sorted] of a duplicate-free list is strictly increasing. *)
Lemma sorted_strict l : List.NoDup l -> StronglySorted lt (sorted l).
Proof.
  intros ND. pose proof (isort_strongly_sorted Nat.leb nat_leb_total nat_leb_trans l) as SS.
  assert (ND' : List.NoDup (sorted l)) by (eapply Permutation_NoDup; [symmetry; apply sorted_perm|done]).
  fold (sorted l) in SS. revert ND' SS. generalize (sorted l). clear.
  induction l as [|x r IH]; intros ND SS; [constructor|].
  inversion SS as [|? ? SS' F]; subst. apply List.NoDup_cons_iff in ND as [Hx ND].
  constructor; [by apply IH|]. rewrite List.Forall_forall in F |- *.
  intros y Hy. specialize (F y Hy). apply Nat.leb_le in F.
  assert (x <> y) by (intros ->; contradiction). lia.
Qed.

(* ------------------------------------------------------------------ *)
(** ** [itertools.combinations] *)

Lemma pairs_of_in {A} (l : list A) a b : In (a, b) (pairs_of l) -> In a l /\ In b l.
Proof.
  induction l as [|x r IH]; simpl; [done|]. intros [H|H]%in_app_or.
  - apply in_map_iff in H as (y & [= -> ->] & Hy). auto.
  - destruct (IH H). auto.
Qed.

Lemma pairs_of_in_sorted (l : list nat) a b :
  StronglySorted lt l -> (In (a, b) (pairs_of l) <-> In a l /\ In b l /\ a < b).
Proof.
  induction 1 as [|x r SS IH F]; simpl; [tauto|].
  rewrite List.Forall_forall in F. rewrite in_app_iff, in_map_iff, IH. split.
  - intros [(y & [= -> ->] & Hy)|(Ha & Hb & Hab)]; [|tauto].
    specialize (F b Hy). tauto.
  - intros ([->|Ha] & [->|Hb] & Hab).
    + lia.
    + left. eauto.
    + specialize (F a Ha). lia.
    + tauto.
Qed.

Lemma pairs_of_nodup {A} (l : list A) : List.NoDup l -> List.NoDup (pairs_of l).
Proof.
  induction 1 as [|x r Hx ND IH]; simpl; [constructor|].
  apply List.NoDup_app.
  - apply Finite.Injective_map_NoDup; [|done]. intros y z [=]. done.
  - exact IH.
  - intros p Hp Hp'. apply in_map_iff in Hp as (y & <- & _).
    apply pairs_of_in in Hp' as [? _]. contradiction.
Qed.

Lemma triples_of_in {A} (l : list A) x y z :
  In (x, y, z) (triples_of l) -> In x l /\ In y l /\ In z l.
Proof.
  induction l as [|w r IH]; simpl; [done|]. intros [H|H]%in_app_or.
  - apply in_map_iff in H as ([y' z'] & [= -> -> ->] & Hyz).
    apply pairs_of_in in Hyz. tauto.
  - destruct (IH H) as (? & ? & ?). auto.
Qed.

Lemma triples_of_in_sorted (l : list nat) x y z :
  StronglySorted lt l ->
  (In (x, y, z) (triples_of l) <-> In x l /\ In y l /\ In z l /\ x < y /\ y < z).
Proof.
  induction 1 as [|w r SS IH F]; simpl; [tauto|].
  rewrite List.Forall_forall in F. rewrite in_app_iff, in_map_iff, IH. split.
  - intros [([y' z'] & [= -> -> ->] & Hyz)|H]; [|tauto].
    apply (pairs_of_in_sorted r) in Hyz as (Hy & Hz & Hyz); [|done].
    specialize (F y Hy). tauto.
  - intros (Hx & Hy & Hz & Hxy & Hyz). destruct Hx as [<-|Hx].
    + destruct Hy as [<-|Hy]; [lia|]. destruct Hz as [<-|Hz]; [lia|].
      left. exists (y, z). split; [done|]. by apply pairs_of_in_sorted.
    + destruct Hy as [<-|Hy]; [specialize (F x Hx); lia|].
      destruct Hz as [<-|Hz]; [specialize (F y Hy); lia|]. tauto.
Qed.

Lemma triples_of_nodup {A} (l : list A) : List.NoDup l -> List.NoDup (triples_of l).
Proof.
  induction 1 as [|w r Hw ND IH]; simpl; [constructor|].
  apply List.NoDup_app.
  - apply Finite.Injective_map_NoDup; [|by apply pairs_of_nodup].
    intros [y z] [y' z'] [=]. by subst.
  - exact IH.
  - intros [[x y] z] Hp Hp'. apply in_map_iff in Hp as ([y' z'] & [= <- _ _] & _).
    apply triples_of_in in Hp' as [? _]. contradiction.
Qed.

(* ------------------------------------------------------------------ *)
(** ** Counting with [defaultdict(int)] *)

Section Counting.
Context {K : Type} `{Countable K}.

Lemma lookup0_incr (m : gmap K nat) p k :
  lookup0 (incr m p) k = lookup0 m k + (if decide (p = k) then 1 else 0).
Proof.
  unfold lookup0, incr. rewrite lookup_insert.
  case_decide; subst; simpl; [done|lia].
Qed.

Lemma fold_incr_lookup0 (l : list K) m k :
  lookup0 (fold_left incr l m) k = lookup0 m k + cnt k l.
Proof.
  revert m. induction l as [|p r IH]; intros m; simpl; [lia|].
  rewrite IH, lookup0_incr. lia.
Qed.

Lemma fold_incr_none (l : list K) m k :
  fold_left incr l m !! k = None <-> m !! k = None /\ ~ In k l.
Proof.
  revert m. induction l as [|p r IH]; intros m; simpl; [tauto|].
  rewrite IH. unfold incr. rewrite lookup_insert.
  case_decide; subst; [naive_solver|]. naive_solver.
Qed.

Lemma fold_incr_pos (l : list K) m :
  (forall k c, m !! k = Some c -> 0 < c) ->
  forall k c, fold_left incr l m !! k = Some c -> 0 < c.
Proof.
  revert m. induction l as [|p r IH]; intros m Hm; simpl; [done|].
  apply IH. intros k c. unfold incr. rewrite lookup_insert.
  case_decide; [intros [= <-]; lia|]. apply Hm.
Qed.

Lemma fold_cond_incr (P : K -> Prop) `{forall k, Decision (P k)} (l : list K) m :
  fold_left (fun m p => if decide (P p) then incr m p else m) l m
  = fold_left incr (List.filter (fun p => bool_decide (P p)) l) m.
Proof.
  revert m. induction l as [|p r IH]; intros m; simpl; [done|].
  rewrite IH. by case_bool_decide; case_decide.
Qed.

Lemma cnt_app (k : K) l1 l2 : cnt k (l1 ++ l2) = cnt k l1 + cnt k l2.
Proof. induction l1; simpl; lia. Qed.

Lemma cnt_nodup (k : K) l :
  List.NoDup l -> cnt k l = if bool_decide (k ∈ l) then 1 else 0.
Proof.
  induction 1 as [|y r Hy ND IH]; simpl; [done|].
  rewrite IH. rewrite <- list_elem_of_In in Hy.
  repeat case_bool_decide; case_decide; subst;
    rewrite ?elem_of_cons in *; naive_solver.
Qed.

Lemma cnt_flat_map {T} (g : T -> list K) (k : K) l :
  (forall t, List.NoDup (g t)) ->
  cnt k (flat_map g l) = length (List.filter (fun t => bool_decide (k ∈ g t)) l).
Proof.
  intros ND. induction l as [|t r IH]; simpl; [done|].
  rewrite cnt_app, IH, cnt_nodup by apply ND. by case_bool_decide.
Qed.
End Counting.

Lemma fold_nest {A B C} (h : A -> B -> A) (g : C -> list B) (l : list C) m :
  fold_left (fun m t => fold_left h (g t) m) l m = fold_left h (flat_map g l) m.
Proof.
  revert m. induction l as [|t r IH]; intros m; simpl; [done|].
  by rewrite fold_left_app, IH.
Qed.

Lemma fold_incr_is_Some {K} `{Countable K} (l : list K) (m : gmap K nat) k :
  is_Some (fold_left incr l m !! k) <-> is_Some (m !! k) \/ In k l.
Proof.
  revert m. induction l as [|p r IH]; intros m; simpl; [tauto|].
  rewrite IH. unfold incr. rewrite lookup_insert.
  case_decide; subst; [naive_solver|]. naive_solver.
Qed.

Lemma fold_nest_cond {A B} `{Countable B} (P : B -> Prop) `{forall b, Decision (P b)}
    (g : A -> list B) l m :
  fold_left (fun m t => fold_left (fun m p => if decide (P p) then incr m p else m) (g t) m) l m
  = fold_left incr (flat_map (fun t => List.filter (fun p => bool_decide (P p)) (g t)) l) m.
Proof.
  revert m. induction l as [|t r IH]; intros m; simpl; [done|].
  by rewrite fold_cond_incr, IH, fold_left_app.
Qed.

Lemma fold_counter {A B} (F : B -> A -> A) l m n :
  fold_left (fun ms t => (F t ms.1, S ms.2)) l (m, n)
  = (fold_left (fun m t => F t m) l m, n + length l).
Proof.
  revert m n. induction l as [|t r IH]; intros m n; simpl; [f_equal; lia|].
  rewrite IH. f_equal. lia.
Qed.

Lemma strict_nodup l : StronglySorted lt l -> List.NoDup l.
Proof.
  induction 1 as [|x r SS IH F]; constructor; [|done].
  rewrite List.Forall_forall in F. intros Hx. specialize (F x Hx). lia.
Qed.

Lemma lookup0_empty {K} `{Countable K} (k : K) : lookup0 (∅ : gmap K nat) k = 0.
Proof. unfold lookup0. by rewrite lookup_empty. Qed.

Lemma fold_incr_empty_pos {K} `{Countable K} (l : list K) k c :
  fold_left incr l ∅ !! k = Some c -> 0 < c.
Proof. apply fold_incr_pos. intros k' c'. by rewrite lookup_empty. Qed.

(* ------------------------------------------------------------------ *)
(** ** Level 1 *)

Lemma item_sup_eq ms transactions :
  (apriori_L1 ms transactions).1
  = fold_left incr (flat_map (fun t : gset nat => elements t) transactions) ∅.
Proof. exact (fold_nest incr (fun t : gset nat => elements t) transactions ∅). Qed.

Lemma item_sup_lookup0 ms transactions x :
  lookup0 (apriori_L1 ms transactions).1 x = support_item x transactions.
Proof.
  rewrite item_sup_eq, fold_incr_lookup0, lookup0_empty, cnt_flat_map.
  - simpl. unfold support_item. f_equal. apply filter_ext. intros t.
    apply bool_decide_ext. apply elem_of_elements.
  - intros t. apply NoDup_ListNoDup, NoDup_elements.
Qed.

Lemma item_sup_value ms transactions x c :
  (apriori_L1 ms transactions).1 !! x = Some c -> c = support_item x transactions /\ 0 < c.
Proof.
  intros Hc. split.
  - rewrite <- (item_sup_lookup0 ms). unfold lookup0. by rewrite Hc.
  - rewrite item_sup_eq in Hc. by eapply fold_incr_empty_pos.
Qed.

Lemma L1_in ms transactions x :
  In x (apriori_L1 ms transactions).2 <->
  exists c, (apriori_L1 ms transactions).1 !! x = Some c /\ frequent ms c = true.
Proof.
  cbn [apriori_L1 fst snd]. rewrite sorted_in, <- list_elem_of_In, list_elem_of_fmap. split.
  - intros ([y c] & -> & Hin). apply elem_of_map_to_list, map_lookup_filter_Some in Hin.
    exists c. exact Hin.
  - intros (c & Hx & Hf). exists (x, c). split; [done|].
    apply elem_of_map_to_list, map_lookup_filter_Some. auto.
Qed.

Lemma L1_strict ms transactions : StronglySorted lt (apriori_L1 ms transactions).2.
Proof. apply sorted_strict. cbn [apriori_L1 snd]. apply NoDup_ListNoDup. apply NoDup_fst_map_to_list. Qed.

Lemma L1_in_item_sup ms transactions x :
  In x (apriori_L1 ms transactions).2 -> 0 < lookup0 (apriori_L1 ms transactions).1 x.
Proof.
  intros (c & Hc & _)%L1_in. unfold lookup0. rewrite Hc. apply item_sup_value in Hc. simpl; lia.
Qed.

(* ------------------------------------------------------------------ *)
(** ** Level 2 *)

Lemma filtered_items_in L1 t x : In x (filtered_items L1 t) <-> x ∈ t /\ In x L1.
Proof.
  unfold filtered_items. rewrite sorted_in, <- list_elem_of_In, list_elem_of_filter.
  rewrite elem_of_list_to_set, elem_of_elements, list_elem_of_In. tauto.
Qed.

Lemma filtered_items_strict L1 t : StronglySorted lt (filtered_items L1 t).
Proof.
  apply sorted_strict. apply NoDup_ListNoDup, NoDup_filter, NoDup_elements.
Qed.

Lemma C2_of_in L1 a b : (a, b) ∈ C2_of L1 <-> In (a, b) (pairs_of L1).
Proof. unfold C2_of. by rewrite elem_of_list_to_set, list_elem_of_In. Qed.

Lemma pair_scan_in L1 t a b :
  In (a, b) (pair_scan L1 t) <->
  (a, b) ∈ C2_of L1 /\ a ∈ t /\ b ∈ t /\ In a L1 /\ In b L1 /\ a < b.
Proof.
  unfold pair_scan. rewrite filter_In, bool_decide_eq_true.
  rewrite pairs_of_in_sorted by apply filtered_items_strict.
  rewrite !filtered_items_in. tauto.
Qed.

Lemma pair_scan_nodup L1 t : List.NoDup (pair_scan L1 t).
Proof.
  apply List.NoDup_filter, pairs_of_nodup, strict_nodup, filtered_items_strict.
Qed.

Lemma count_pairs_eq L1 transactions :
  count_pairs L1 transactions = fold_left incr (flat_map (pair_scan L1) transactions) ∅.
Proof. apply fold_nest_cond. Qed.

Lemma count_pairs_key L1 transactions a b :
  is_Some (count_pairs L1 transactions !! (a, b)) <->
  (a, b) ∈ C2_of L1 /\ a < b /\ exists t, In t transactions /\ a ∈ t /\ b ∈ t.
Proof.
  rewrite count_pairs_eq, fold_incr_is_Some, lookup_empty, in_flat_map.
  setoid_rewrite pair_scan_in.
  pose proof (fun H => pairs_of_in L1 a b (proj1 (C2_of_in L1 a b) H)).
  split; [intros [[? Hn]|(t & Ht & H2 & Ha & Hb & _ & _ & Hab)]; [done|eauto 10]|].
  intros (H2 & Hab & t & Ht & Ha & Hb). right. exists t. naive_solver.
Qed.

Lemma count_pairs_value L1 transactions a b c :
  count_pairs L1 transactions !! (a, b) = Some c ->
  c = support_pair (a, b) transactions /\ 0 < c.
Proof.
  intros Hc. assert (Hk : is_Some (count_pairs L1 transactions !! (a, b))) by eauto.
  apply count_pairs_key in Hk as (HC & Hab & _).
  pose proof (pairs_of_in L1 a b (proj1 (C2_of_in L1 a b) HC)) as [HaL HbL].
  split.
  - transitivity (lookup0 (count_pairs L1 transactions) (a, b));
      [unfold lookup0; by rewrite Hc|].
    rewrite count_pairs_eq, fold_incr_lookup0, lookup0_empty, cnt_flat_map
      by apply pair_scan_nodup.
    simpl. unfold support_pair. f_equal. apply filter_ext. intros t.
    apply bool_decide_ext. rewrite list_elem_of_In, pair_scan_in. simpl. tauto.
  - rewrite count_pairs_eq in Hc. by eapply fold_incr_empty_pos.
Qed.

Lemma L2_in ms transactions L1 p :
  p ∈ (apriori_L2 ms transactions L1).2 <->
  exists c, (apriori_L2 ms transactions L1).1 !! p = Some c /\ frequent ms c = true.
Proof.
  cbn [apriori_L2 fst snd]. rewrite elem_of_dom. split.
  - intros [c Hc]. apply map_lookup_filter_Some in Hc. eauto.
  - intros (c & Hc & Hf). exists c. apply map_lookup_filter_Some. auto.
Qed.

(* ------------------------------------------------------------------ *)
(** ** Level 3 counting *)

Lemma elements_strict (t : gset nat) : StronglySorted lt (sorted (elements t)).
Proof. apply sorted_strict, NoDup_ListNoDup, NoDup_elements. Qed.

Lemma triple_scan_in C3 t x y z :
  In (x, y, z) (triple_scan C3 t) <->
  (x, y, z) ∈ C3 /\ x ∈ t /\ y ∈ t /\ z ∈ t /\ x < y /\ y < z.
Proof.
  unfold triple_scan. rewrite filter_In, bool_decide_eq_true.
  rewrite triples_of_in_sorted by apply elements_strict.
  rewrite !sorted_in, <- !list_elem_of_In, !elem_of_elements. tauto.
Qed.

Lemma triple_scan_nodup C3 t : List.NoDup (triple_scan C3 t).
Proof.
  apply List.NoDup_filter, triples_of_nodup, strict_nodup, elements_strict.
Qed.

Lemma count_triples_eq C3 transactions :
  count_triples C3 transactions
  = (fold_left incr (flat_map (triple_scan C3) transactions) ∅, length transactions).
Proof.
  unfold count_triples.
  rewrite (fold_counter (fun t m =>
    fold_left (fun m tri => if decide (tri ∈ C3) then incr m tri else m)
      (triples_of (sorted (elements t))) m)).
  f_equal. apply fold_nest_cond.
Qed.

Lemma count_triples_key C3 transactions x y z :
  is_Some ((count_triples C3 transactions).1 !! (x, y, z)) <->
  (x, y, z) ∈ C3 /\ x < y /\ y < z /\
  exists t, In t transactions /\ x ∈ t /\ y ∈ t /\ z ∈ t.
Proof.
  rewrite count_triples_eq. simpl.
  rewrite fold_incr_is_Some, lookup_empty, in_flat_map.
  setoid_rewrite triple_scan_in.
  split; [intros [[? Hn]|(t & Ht & H3 & Hx & Hy & Hz & Hxy & Hyz)]; [done|eauto 10]|].
  intros (H3 & Hxy & Hyz & t & Ht & Hx & Hy & Hz). right. exists t. naive_solver.
Qed.

Lemma count_triples_value C3 transactions x y z c :
  (count_triples C3 transactions).1 !! (x, y, z) = Some c ->
  c = support_triple (x, y, z) transactions /\ 0 < c.
Proof.
  intros Hc. assert (Hk : is_Some ((count_triples C3 transactions).1 !! (x, y, z))) by eauto.
  apply count_triples_key in Hk as (HC & Hxy & Hyz & _).
  split.
  - transitivity (lookup0 (count_triples C3 transactions).1 (x, y, z));
      [unfold lookup0; by rewrite Hc|].
    rewrite count_triples_eq. simpl.
    rewrite fold_incr_lookup0, lookup0_empty, cnt_flat_map by apply triple_scan_nodup.
    simpl. unfold support_triple. f_equal. apply filter_ext. intros t.
    apply bool_decide_ext. rewrite list_elem_of_In, triple_scan_in. simpl. tauto.
  - rewrite count_triples_eq in Hc. simpl in Hc. by eapply fold_incr_empty_pos.
Qed.

(* ------------------------------------------------------------------ *)
(** ** Candidate triples and level 3 *)

Lemma C3_sound L2 a b c :
  (a, b, c) ∈ apriori_C3_from_L2 L2 -> (a, b) ∈ L2 /\ (a, c) ∈ L2 /\ (b, c) ∈ L2.
Proof.
  unfold apriori_C3_from_L2. generalize (map_to_list (by_first_of L2)) as l. intros l.
  cut (forall acc : gset (nat * nat * nat),
         (forall a b c, (a, b, c) ∈ acc -> (a, b) ∈ L2 /\ (a, c) ∈ L2 /\ (b, c) ∈ L2) ->
         forall a b c, (a, b, c) ∈ fold_left (fun C3 (abs : nat * gset nat) =>
            fold_left (fun C3 (bc : nat * nat) =>
              if decide ((abs.1, bc.1) ∈ L2 /\ (abs.1, bc.2) ∈ L2 /\ (bc.1, bc.2) ∈ L2)
              then {[(abs.1, bc.1, bc.2)]} ∪ C3 else C3)
              (pairs_of (sorted (elements abs.2))) C3) l acc ->
         (a, b) ∈ L2 /\ (a, c) ∈ L2 /\ (b, c) ∈ L2).
  { intros Hc. apply Hc. set_solver. }
  induction l as [|[a0 bs] l IH]; intros acc Hacc; simpl; [exact Hacc|].
  apply IH. generalize (pairs_of (sorted (elements bs))) as ps. intros ps.
  induction ps as [|[b0 c0] ps IHps] in acc, Hacc |- *; simpl; [done|].
  apply IHps. case_decide as Hd; [|done].
  intros a' b' c' [Hs|Ha]%elem_of_union; [|by apply Hacc].
  apply elem_of_singleton in Hs. simplify_eq. exact Hd.
Qed.

Lemma apriori_L3_nonempty ms transactions C3 :
  C3 <> ∅ ->
  apriori_L3 ms transactions C3 =
  ((count_triples C3 transactions).1,
   dom (filter (fun tc : (nat * nat * nat) * nat => frequent ms tc.2 = true)
          (count_triples C3 transactions).1)).
Proof.
  intros Hne. unfold apriori_L3, apriori_L3_run. rewrite decide_False by done.
  rewrite count_triples_eq. done.
Qed.

Lemma apriori_L3_empty ms transactions :
  apriori_L3_run ms transactions ∅ = (∅, ∅, 0).
Proof. unfold apriori_L3_run. by rewrite decide_True. Qed.

Lemma triple_sup_key ms transactions C3 x y z :
  is_Some ((apriori_L3 ms transactions C3).1 !! (x, y, z)) <->
  (x, y, z) ∈ C3 /\ x < y /\ y < z /\
  exists t, In t transactions /\ x ∈ t /\ y ∈ t /\ z ∈ t.
Proof.
  destruct (decide (C3 = ∅)) as [->|Hne].
  - unfold apriori_L3. rewrite apriori_L3_empty. simpl.
    rewrite lookup_empty. split; [intros [? Hn]; done|]. set_solver.
  - rewrite apriori_L3_nonempty by done. simpl. apply count_triples_key.
Qed.

Lemma triple_sup_value ms transactions C3 x y z c :
  (apriori_L3 ms transactions C3).1 !! (x, y, z) = Some c ->
  c = support_triple (x, y, z) transactions /\ 0 < c.
Proof.
  destruct (decide (C3 = ∅)) as [->|Hne].
  - unfold apriori_L3. rewrite apriori_L3_empty. simpl. by rewrite lookup_empty.
  - rewrite apriori_L3_nonempty by done. simpl. apply count_triples_value.
Qed.

Lemma L3_in ms transactions C3 tri :
  tri ∈ (apriori_L3 ms transactions C3).2 <->
  exists c, (apriori_L3 ms transactions C3).1 !! tri = Some c /\ frequent ms c = true.
Proof.
  destruct (decide (C3 = ∅)) as [->|Hne].
  - unfold apriori_L3. rewrite apriori_L3_empty. simpl.
    rewrite lookup_empty. set_solver.
  - rewrite apriori_L3_nonempty by done. simpl. rewrite elem_of_dom. split.
    + intros [c Hc]. apply map_lookup_filter_Some in Hc. eauto.
    + intros (c & Hc & Hf). exists c. apply map_lookup_filter_Some. auto.
Qed.

Lemma triple_sup_in_C3 ms transactions C3 tri c :
  (apriori_L3 ms transactions C3).1 !! tri = Some c -> tri ∈ C3.
Proof.
  destruct tri as [[x y] z]. intros Hc.
  assert (Hk : is_Some ((apriori_L3 ms transactions C3).1 !! (x, y, z))) by eauto.
  apply triple_sup_key in Hk. tauto.
Qed.

(* ------------------------------------------------------------------ *)
(** ** The sort keys *)

Lemma q_lex_trans (c1 c2 c3 : Q) (P12 P23 P13 : Prop) :
  (P12 -> P23 -> P13) ->
  ((c2 < c1)%Q \/ (c2 == c1)%Q /\ P12) -> ((c3 < c2)%Q \/ (c3 == c2)%Q /\ P23) ->
  (c3 < c1)%Q \/ (c3 == c1)%Q /\ P13.
Proof.
  intros HP [H12|[E12 P12']] [H23|[E23 P23']].
  - left. by apply (Qlt_trans _ c2).
  - left. by rewrite E23.
  - left. by rewrite <- E12.
  - right. split; [by apply (Qeq_trans _ c2)|auto].
Qed.

Lemma q_lex_total (c1 c2 : Q) (P12 P21 : Prop) :
  (~ P12 -> P21) ->
  ~ ((c2 < c1)%Q \/ (c2 == c1)%Q /\ P12) -> (c1 < c2)%Q \/ (c1 == c2)%Q /\ P21.
Proof.
  intros HP H. destruct (Qcompare_spec c1 c2) as [E|L|G].
  - right. split; [done|]. apply HP. intros P. apply H. right. split; [by symmetry|done].
  - by left.
  - exfalso. apply H. by left.
Qed.

Ltac nat_cmp :=
  repeat match goal with
  | |- context [Nat.compare ?a ?b] => destruct (Nat.compare_spec a b)
  | |- context [Nat.leb ?a ?b] => destruct (Nat.leb_spec a b)
  end.

Lemma rule_leb_d_spec r1 r2 : rule_leb_d r1 r2 = true <-> ranked_before_d r1 r2.
Proof.
  unfold rule_leb_d, ranked_before_d.
  destruct (Qcompare_spec (conf_d r2) (conf_d r1)) as [E|L|G].
  - assert (~ (conf_d r2 < conf_d r1)%Q) by (rewrite E; apply Qlt_irrefl).
    nat_cmp; split; intros; try done; try lia; try (right; split; [done|lia]);
      destruct_or?; destruct_and?; try lia; done.
  - split; [by left|done].
  - split; [done|]. intros [L|[E _]].
    + exfalso. apply (Qlt_irrefl (conf_d r1)). by apply (Qlt_trans _ (conf_d r2)).
    + exfalso. rewrite E in G. by apply Qlt_irrefl in G.
Qed.

Lemma rule_leb_e_spec r1 r2 : rule_leb_e r1 r2 = true <-> ranked_before_e r1 r2.
Proof.
  unfold rule_leb_e, ranked_before_e.
  destruct (Qcompare_spec (conf_e r2) (conf_e r1)) as [E|L|G].
  - assert (~ (conf_e r2 < conf_e r1)%Q) by (rewrite E; apply Qlt_irrefl).
    nat_cmp; split; intros; try done; try lia; try (right; split; [done|lia]);
      destruct_or?; destruct_and?; try lia; done.
  - split; [by left|done].
  - split; [done|]. intros [L|[E _]].
    + exfalso. apply (Qlt_irrefl (conf_e r1)). by apply (Qlt_trans _ (conf_e r2)).
    + exfalso. rewrite E in G. by apply Qlt_irrefl in G.
Qed.

Lemma rule_leb_d_trans r1 r2 r3 :
  rule_leb_d r1 r2 = true -> rule_leb_d r2 r3 = true -> rule_leb_d r1 r3 = true.
Proof.
  rewrite !rule_leb_d_spec. unfold ranked_before_d. intros H12 H23.
  eapply q_lex_trans; [|exact H12|exact H23]. lia.
Qed.

Lemma rule_leb_d_total r1 r2 : rule_leb_d r1 r2 = false -> rule_leb_d r2 r1 = true.
Proof.
  intros H. apply rule_leb_d_spec. apply q_lex_total with
    (P12 := lhs_d r1 < lhs_d r2 \/ (lhs_d r1 = lhs_d r2 /\ rhs_d r1 <= rhs_d r2)); [lia|].
  intros Hr. assert (rule_leb_d r1 r2 = true) by (apply rule_leb_d_spec; exact Hr).
  congruence.
Qed.

Lemma rule_leb_e_trans r1 r2 r3 :
  rule_leb_e r1 r2 = true -> rule_leb_e r2 r3 = true -> rule_leb_e r1 r3 = true.
Proof.
  rewrite !rule_leb_e_spec. unfold ranked_before_e. intros H12 H23.
  eapply q_lex_trans; [|exact H12|exact H23]. lia.
Qed.

Lemma rule_leb_e_total r1 r2 : rule_leb_e r1 r2 = false -> rule_leb_e r2 r1 = true.
Proof.
  intros H. apply rule_leb_e_spec. apply q_lex_total with
    (P12 := (lhs_e r1).1 < (lhs_e r2).1 \/
            ((lhs_e r1).1 = (lhs_e r2).1 /\
             ((lhs_e r1).2 < (lhs_e r2).2 \/
              ((lhs_e r1).2 = (lhs_e r2).2 /\ rhs_e r1 <= rhs_e r2)))); [lia|].
  intros Hr. assert (rule_leb_e r1 r2 = true) by (apply rule_leb_e_spec; exact Hr).
  congruence.
Qed.

(* ------------------------------------------------------------------ *)
(** ** Emitting the rules *)

Lemma py_div_Some n d c : py_div n d = Some c -> d <> 0 /\ c = Qred (Z.of_nat n # Pos.of_nat d).
Proof. unfold py_div. destruct (Nat.eqb_spec d 0); [done|]. intros [= <-]. done. Qed.

Lemma py_div_nonzero n d : d <> 0 -> py_div n d = Some (Qred (Z.of_nat n # Pos.of_nat d)).
Proof. unfold py_div. by destruct (Nat.eqb_spec d 0). Qed.

Lemma qred_frac_inj s1 s2 (d : positive) :
  (Qred (Z.of_nat s1 # d) == Qred (Z.of_nat s2 # d))%Q -> s1 = s2.
Proof.
  rewrite !Qred_correct. unfold Qeq. simpl. pose proof (Pos2Z.is_pos d). nia.
Qed.

Lemma rules_d_some item_sup pair_sup l :
  (forall a b, In (a, b) l -> lookup0 item_sup a <> 0 /\ lookup0 item_sup b <> 0) ->
  is_Some (rules_d item_sup pair_sup l).
Proof.
  induction l as [|[a b] l IH]; intros Hl; simpl; [by eexists|].
  destruct (Hl a b (or_introl eq_refl)) as [Ha Hb].
  rewrite !py_div_nonzero by done. simpl.
  destruct IH as [rs ->]; [intros ? ? ?; apply Hl; by right|]. by eexists.
Qed.

Lemma rules_e_some pair_sup triple_sup l :
  (forall x y z, In (x, y, z) l ->
     lookup0 pair_sup (x, y) <> 0 /\ lookup0 pair_sup (x, z) <> 0 /\
     lookup0 pair_sup (y, z) <> 0) ->
  is_Some (rules_e pair_sup triple_sup l).
Proof.
  induction l as [|[[x y] z] l IH]; intros Hl; simpl; [by eexists|].
  destruct (Hl x y z (or_introl eq_refl)) as (Hxy & Hxz & Hyz).
  rewrite !py_div_nonzero by done. simpl.
  destruct IH as [rs ->]; [intros ? ? ? ?; apply Hl; by right|]. by eexists.
Qed.

(** Every emitted rule of part (d) carries the confidence of its own
    support over the support of its LHS. *)
Lemma rules_d_ok item_sup pair_sup l rs :
  rules_d item_sup pair_sup l = Some rs ->
  forall r, In r rs -> lookup0 item_sup (lhs_d r) <> 0 /\
    conf_d r = Qred (Z.of_nat (sup_d r) # Pos.of_nat (lookup0 item_sup (lhs_d r))).
Proof.
  revert rs. induction l as [|[a b] l IH]; intros rs; simpl; [intros [= <-]; done|].
  destruct (py_div _ (lookup0 item_sup a)) as [c1|] eqn:E1; [|done]. simpl.
  destruct (py_div _ (lookup0 item_sup b)) as [c2|] eqn:E2; [|done]. simpl.
  destruct (rules_d item_sup pair_sup l) as [rest|] eqn:E3; [|done]. simpl.
  intros [= <-] r [<-|[<-|Hr]].
  - by apply py_div_Some in E1.
  - by apply py_div_Some in E2.
  - by apply (IH rest).
Qed.

Lemma rules_e_ok pair_sup triple_sup l rs :
  rules_e pair_sup triple_sup l = Some rs ->
  forall r, In r rs -> lookup0 pair_sup (lhs_e r) <> 0 /\
    conf_e r = Qred (Z.of_nat (sup_e r) # Pos.of_nat (lookup0 pair_sup (lhs_e r))).
Proof.
  revert rs. induction l as [|[[x y] z] l IH]; intros rs; simpl; [intros [= <-]; done|].
  destruct (py_div _ (lookup0 pair_sup (x, y))) as [c1|] eqn:E1; [|done]. simpl.
  destruct (py_div _ (lookup0 pair_sup (x, z))) as [c2|] eqn:E2; [|done]. simpl.
  destruct (py_div _ (lookup0 pair_sup (y, z))) as [c3|] eqn:E3; [|done]. simpl.
  destruct (rules_e pair_sup triple_sup l) as [rest|] eqn:E4; [|done]. simpl.
  intros [= <-] r [<-|[<-|[<-|Hr]]].
  - by apply py_div_Some in E1.
  - by apply py_div_Some in E2.
  - by apply py_div_Some in E3.
  - by apply (IH rest).
Qed.

(** Two emitted rules with equal sort keys are equal. *)
Lemma rules_d_key_inj item_sup pair_sup l rs r1 r2 :
  rules_d item_sup pair_sup l = Some rs -> In r1 rs -> In r2 rs ->
  rule_leb_d r1 r2 = true -> rule_leb_d r2 r1 = true -> r1 = r2.
Proof.
  intros Hrs H1 H2 L12 L21.
  destruct (rules_d_ok _ _ _ _ Hrs r1 H1) as [_ C1].
  destruct (rules_d_ok _ _ _ _ Hrs r2 H2) as [_ C2].
  apply rule_leb_d_spec in L12, L21. unfold ranked_before_d in L12, L21.
  assert (Hc : (conf_d r1 == conf_d r2)%Q /\ lhs_d r1 = lhs_d r2 /\ rhs_d r1 = rhs_d r2).
  { destruct L12 as [L12|[E12 R12]], L21 as [L21|[E21 R21]].
    - exfalso. apply (Qlt_irrefl (conf_d r1)). by apply (Qlt_trans _ (conf_d r2)).
    - exfalso. rewrite E21 in L12. by apply Qlt_irrefl in L12.
    - exfalso. rewrite E12 in L21. by apply Qlt_irrefl in L21.
    - split; [done|lia]. }
  destruct Hc as (Ec & El & Er).
  destruct r1 as [c1 a1 b1 s1], r2 as [c2 a2 b2 s2]; simpl in *. subst.
  apply qred_frac_inj in Ec as ->. done.
Qed.

Lemma rules_e_key_inj pair_sup triple_sup l rs r1 r2 :
  rules_e pair_sup triple_sup l = Some rs -> In r1 rs -> In r2 rs ->
  rule_leb_e r1 r2 = true -> rule_leb_e r2 r1 = true -> r1 = r2.
Proof.
  intros Hrs H1 H2 L12 L21.
  destruct (rules_e_ok _ _ _ _ Hrs r1 H1) as [_ C1].
  destruct (rules_e_ok _ _ _ _ Hrs r2 H2) as [_ C2].
  apply rule_leb_e_spec in L12, L21. unfold ranked_before_e in L12, L21.
  assert (Hc : (conf_e r1 == conf_e r2)%Q /\ (lhs_e r1).1 = (lhs_e r2).1 /\
               (lhs_e r1).2 = (lhs_e r2).2 /\ rhs_e r1 = rhs_e r2).
  { destruct L12 as [L12|[E12 R12]], L21 as [L21|[E21 R21]].
    - exfalso. apply (Qlt_irrefl (conf_e r1)). by apply (Qlt_trans _ (conf_e r2)).
    - exfalso. rewrite E21 in L12. by apply Qlt_irrefl in L12.
    - exfalso. rewrite E12 in L21. by apply Qlt_irrefl in L21.
    - split; [done|lia]. }
  destruct Hc as (Ec & El1 & El2 & Er).
  destruct r1 as [c1 [a1 a1'] b1 s1], r2 as [c2 [a2 a2'] b2 s2]; simpl in *. subst.
  apply qred_frac_inj in Ec as ->. done.
Qed.

(** Emitting from two iteration orders of the same pairs fails on both or
    gives permutations of each other. *)
Lemma rules_d_perm item_sup pair_sup l l' :
  Permutation l l' ->
  match rules_d item_sup pair_sup l, rules_d item_sup pair_sup l' with
  | Some rs, Some rs' => Permutation rs rs'
  | None, None => True
  | _, _ => False
  end.
Proof.
  induction 1 as [|[a b] l l' HP IH|[a b] [a' b'] l|l l' l'' H1 IH1 H2 IH2]; simpl.
  - done.
  - destruct (py_div (lookup0 pair_sup (a, b)) (lookup0 item_sup a)); simpl; [|done].
    destruct (py_div (lookup0 pair_sup (a, b)) (lookup0 item_sup b)); simpl; [|done].
    destruct (rules_d item_sup pair_sup l), (rules_d item_sup pair_sup l'); simpl; try done.
    by do 2 constructor.
  - destruct (py_div (lookup0 pair_sup (a', b')) (lookup0 item_sup a')); simpl;
      destruct (py_div (lookup0 pair_sup (a', b')) (lookup0 item_sup b')); simpl;
      destruct (py_div (lookup0 pair_sup (a, b)) (lookup0 item_sup a)); simpl;
      destruct (py_div (lookup0 pair_sup (a, b)) (lookup0 item_sup b)); simpl;
      destruct (rules_d item_sup pair_sup l); simpl; try done.
    match goal with |- Permutation (?r1 :: ?r2 :: ?r3 :: ?r4 :: ?rs) _ =>
      exact (Permutation_app_swap_app [r1; r2] [r3; r4] rs) end.
  - destruct (rules_d item_sup pair_sup l), (rules_d item_sup pair_sup l'),
      (rules_d item_sup pair_sup l''); try done. by transitivity l1.
Qed.

Lemma rules_e_perm pair_sup triple_sup l l' :
  Permutation l l' ->
  match rules_e pair_sup triple_sup l, rules_e pair_sup triple_sup l' with
  | Some rs, Some rs' => Permutation rs rs'
  | None, None => True
  | _, _ => False
  end.
Proof.
  induction 1 as [|[[x y] z] l l' HP IH|[[x y] z] [[x' y'] z'] l|l l' l'' H1 IH1 H2 IH2];
    simpl.
  - done.
  - destruct (py_div (lookup0 triple_sup (x, y, z)) (lookup0 pair_sup (x, y))); simpl; [|done].
    destruct (py_div (lookup0 triple_sup (x, y, z)) (lookup0 pair_sup (x, z))); simpl; [|done].
    destruct (py_div (lookup0 triple_sup (x, y, z)) (lookup0 pair_sup (y, z))); simpl; [|done].
    destruct (rules_e pair_sup triple_sup l), (rules_e pair_sup triple_sup l'); simpl;
      try done.
    by do 3 constructor.
  - destruct (py_div (lookup0 triple_sup (x', y', z')) (lookup0 pair_sup (x', y'))); simpl;
      destruct (py_div (lookup0 triple_sup (x', y', z')) (lookup0 pair_sup (x', z'))); simpl;
      destruct (py_div (lookup0 triple_sup (x', y', z')) (lookup0 pair_sup (y', z'))); simpl;
      destruct (py_div (lookup0 triple_sup (x, y, z)) (lookup0 pair_sup (x, y))); simpl;
      destruct (py_div (lookup0 triple_sup (x, y, z)) (lookup0 pair_sup (x, z))); simpl;
      destruct (py_div (lookup0 triple_sup (x, y, z)) (lookup0 pair_sup (y, z))); simpl;
      destruct (rules_e pair_sup triple_sup l); simpl; try done.
    match goal with |- Permutation (?r1 :: ?r2 :: ?r3 :: ?r4 :: ?r5 :: ?r6 :: ?rs) _ =>
      exact (Permutation_app_swap_app [r1; r2; r3] [r4; r5; r6] rs) end.
  - destruct (rules_e pair_sup triple_sup l), (rules_e pair_sup triple_sup l'),
      (rules_e pair_sup triple_sup l''); try done. by transitivity l1.
Qed.

(* ------------------------------------------------------------------ *)
(** ** Ranking *)

Lemma Sorted_weaken {A} (R S : A -> A -> Prop) l :
  (forall a b, R a b -> S a b) -> Sorted R l -> Sorted S l.
Proof.
  intros HRS. induction 1 as [|x r Sr IH Hd]; constructor; [done|].
  destruct Hd; constructor. by apply HRS.
Qed.

Lemma ranked_before_d_conf r r' : ranked_before_d r r' -> (conf_d r' <= conf_d r)%Q.
Proof. intros [L|[E _]]; [by apply Qlt_le_weak|rewrite E; apply Qle_refl]. Qed.

Lemma ranked_before_e_conf r r' : ranked_before_e r r' -> (conf_e r' <= conf_e r)%Q.
Proof. intros [L|[E _]]; [by apply Qlt_le_weak|rewrite E; apply Qle_refl]. Qed.

Lemma py_take_TOP_K {A} (l : list A) : py_take TOP_K l = firstn 5 l.
Proof. reflexivity. Qed.

Lemma top5_part_d_perm tk item_sup pair_sup l l' :
  Permutation l l' -> top5_part_d tk item_sup pair_sup l = top5_part_d tk item_sup pair_sup l'.
Proof.
  intros HP. pose proof (rules_d_perm item_sup pair_sup l l' HP) as HR.
  unfold top5_part_d.
  destruct (rules_d item_sup pair_sup l) as [rs|] eqn:E,
    (rules_d item_sup pair_sup l') as [rs'|]; try done. simpl.
  do 2 f_equal. apply (isort_perm_eq rule_leb_d rule_leb_d_total rule_leb_d_trans); [|done].
  intros r1 r2 H1 H2. by apply (rules_d_key_inj item_sup pair_sup l rs).
Qed.

Lemma top5_part_e_perm tk pair_sup triple_sup l l' :
  Permutation l l' ->
  top5_part_e tk pair_sup triple_sup l = top5_part_e tk pair_sup triple_sup l'.
Proof.
  intros HP. pose proof (rules_e_perm pair_sup triple_sup l l' HP) as HR.
  unfold top5_part_e.
  destruct (rules_e pair_sup triple_sup l) as [rs|] eqn:E,
    (rules_e pair_sup triple_sup l') as [rs'|]; try done. simpl.
  do 2 f_equal. apply (isort_perm_eq rule_leb_e rule_leb_e_total rule_leb_e_trans); [|done].
  intros r1 r2 H1 H2. by apply (rules_e_key_inj pair_sup triple_sup l rs).
Qed.

(* ------------------------------------------------------------------ *)
(** ** Facts along the pipeline *)

Lemma L2_facts ms transactions L1 a b :
  (a, b) ∈ (apriori_L2 ms transactions L1).2 ->
  In a L1 /\ In b L1 /\ a < b /\
  exists c, (apriori_L2 ms transactions L1).1 !! (a, b) = Some c /\
            frequent ms c = true /\ 0 < c.
Proof.
  intros (c & Hc & Hf)%L2_in.
  assert (Hk : is_Some (count_pairs L1 transactions !! (a, b))) by (simpl in Hc; eauto).
  apply count_pairs_key in Hk as (HC & Hab & _).
  apply C2_of_in, pairs_of_in in HC as [Ha Hb].
  split; [done|]. split; [done|]. split; [done|].
  exists c. split; [done|]. split; [done|]. simpl in Hc. apply count_pairs_value in Hc. lia.
Qed.

Lemma L3_facts ms transactions L2 x y z :
  (x, y, z) ∈ (apriori_L3 ms transactions (apriori_C3_from_L2 L2)).2 ->
  (x, y) ∈ L2 /\ (x, z) ∈ L2 /\ (y, z) ∈ L2.
Proof.
  intros (c & Hc & _)%L3_in. apply triple_sup_in_C3 in Hc. by apply C3_sound.
Qed.

Lemma lookup0_pos {K} `{Countable K} (m : gmap K nat) k c :
  m !! k = Some c -> 0 < c -> 0 < lookup0 m k.
Proof. unfold lookup0. intros -> ?. done. Qed.

Lemma pipeline_denominators_d ms transactions a b :
  let L1 := (apriori_L1 ms transactions).2 in
  (a, b) ∈ (apriori_L2 ms transactions L1).2 ->
  0 < lookup0 (apriori_L1 ms transactions).1 a /\ 0 < lookup0 (apriori_L1 ms transactions).1 b.
Proof.
  intros L1 (Ha & Hb & _)%L2_facts. split; by apply L1_in_item_sup.
Qed.

Lemma pipeline_denominators_e ms transactions x y z :
  let L1 := (apriori_L1 ms transactions).2 in
  let pair_sup := (apriori_L2 ms transactions L1).1 in
  let L2 := (apriori_L2 ms transactions L1).2 in
  (x, y, z) ∈ (apriori_L3 ms transactions (apriori_C3_from_L2 L2)).2 ->
  0 < lookup0 pair_sup (x, y) /\ 0 < lookup0 pair_sup (x, z) /\ 0 < lookup0 pair_sup (y, z).
Proof.
  intros L1 pair_sup L2 (Hxy & Hxz & Hyz)%L3_facts.
  apply L2_facts in Hxy as (_ & _ & _ & c1 & H1 & _ & P1).
  apply L2_facts in Hxz as (_ & _ & _ & c2 & H2 & _ & P2).
  apply L2_facts in Hyz as (_ & _ & _ & c3 & H3 & _ & P3).
  split; [|split]; eapply lookup0_pos; eauto.
Qed.

(** The pipeline never raises, for every configuration. *)
Lemma pipeline_total ms tk transactions :
  exists d e, pipeline ms tk transactions = Some (d, e).
Proof.
  pose proof (pipeline_denominators_d ms transactions) as Dd.
  pose proof (pipeline_denominators_e ms transactions) as De.
  cbv zeta in Dd, De. revert Dd De. unfold pipeline.
  destruct (apriori_L1 ms transactions) as [item_sup L1] eqn:E1; cbn [fst snd].
  destruct (apriori_L2 ms transactions L1) as [pair_sup L2] eqn:E2; cbn [fst snd].
  destruct (apriori_L3 ms transactions (apriori_C3_from_L2 L2)) as [triple_sup L3] eqn:E3;
    cbn [fst snd]. intros Dd De.
  destruct (rules_d_some item_sup pair_sup (elements L2)) as [rs Hrs].
  { intros a b Hab. rewrite <- list_elem_of_In, elem_of_elements in Hab.
    destruct (Dd a b Hab). lia. }
  destruct (rules_e_some pair_sup triple_sup (elements L3)) as [rs' Hrs'].
  { intros x y z Hxyz. rewrite <- list_elem_of_In, elem_of_elements in Hxyz.
    destruct (De x y z Hxyz) as (? & ? & ?). lia. }
  unfold top5_part_d, top5_part_e. rewrite Hrs, Hrs'. simpl. by do 2 eexists.
Qed.

Lemma C2_canonical L1 a b : StronglySorted lt L1 -> (a, b) ∈ C2_of L1 -> a < b.
Proof. intros SS H. apply C2_of_in in H. apply (pairs_of_in_sorted L1 a b SS) in H. tauto. Qed.

Lemma C3_canonical ms transactions L1 x y z :
  (x, y, z) ∈ apriori_C3_from_L2 (apriori_L2 ms transactions L1).2 -> x < y /\ y < z.
Proof.
  intros (Hxy & _ & Hyz)%C3_sound.
  apply L2_facts in Hxy as (_ & _ & ? & _). apply L2_facts in Hyz as (_ & _ & ? & _). lia.
Qed.

Lemma top5_part_d_zero item_sup pair_sup l d :
  top5_part_d 0 item_sup pair_sup l = Some d -> d = [].
Proof. unfold top5_part_d. destruct (rules_d item_sup pair_sup l); simpl; [|done]. by intros [= <-]. Qed.

Lemma top5_part_e_zero pair_sup triple_sup l e :
  top5_part_e 0 pair_sup triple_sup l = Some e -> e = [].
Proof. unfold top5_part_e. destruct (rules_e pair_sup triple_sup l); simpl; [|done]. by intros [= <-]. Qed.

Lemma pipeline_zero ms transactions d e :
  pipeline ms 0 transactions = Some (d, e) -> d = [] /\ e = [].
Proof.
  unfold pipeline.
  destruct (apriori_L1 ms transactions) as [item_sup L1].
  destruct (apriori_L2 ms transactions L1) as [pair_sup L2].
  destruct (apriori_L3 ms transactions (apriori_C3_from_L2 L2)) as [triple_sup L3].
  destruct (top5_part_d 0 item_sup pair_sup (elements L2)) as [d'|] eqn:Ed; [|done].
  destruct (top5_part_e 0 pair_sup triple_sup (elements L3)) as [e'|] eqn:Ee; [|done].
  simpl. intros [= <- <-].
  split; [by eapply top5_part_d_zero|by eapply top5_part_e_zero].
Qed.

(* ================================================================== *)
(** * The claims *)

(** C1 (support consistency): the supports recorded by [apriori_L1],
    [apriori_L2] and [apriori_L3] equal the number of transactions containing
    the itemset, recomputed by a direct scan.  Every item is mapped to the
    number of transactions containing it (0 when absent), and every pair or
    triple recorded in the support mapping to the number of transactions
    containing it; transactions are sets, so an item counts once per
    transaction.  This holds for any [L1] and [C3] given to the functions. *)
Theorem support_consistency (transactions : list (gset nat)) (L1 : list nat)
    (C3 : gset (nat * nat * nat)) :
  (forall x, lookup0 (apriori_L1 MIN_SUPPORT transactions).1 x
             = support_item x transactions) /\
  (forall p c, (apriori_L2 MIN_SUPPORT transactions L1).1 !! p = Some c ->
               c = support_pair p transactions) /\
  (forall tri c, (apriori_L3 MIN_SUPPORT transactions C3).1 !! tri = Some c ->
                 c = support_triple tri transactions).
Proof.
  split; [|split].
  - intros x. apply item_sup_lookup0.
  - intros [a b] c Hc. simpl in Hc. by apply count_pairs_value in Hc as [-> _].
  - intros [[x y] z] c Hc. by apply triple_sup_value in Hc as [-> _].
Qed.

(** C2 (top-K correctness): each of [top5_part_d] and [top5_part_e] returns
    the first [TOP_K] rules of the emitted rules ranked by confidence
    (descending), then LHS (ascending; a pair lexicographically), then RHS
    (ascending): what it returns and the rules left out together are a
    permutation of all emitted rules, it returns [min TOP_K n] of the [n]
    rules, in ranking order, and no rule left out ranks before (in
    particular has higher confidence than) a returned one. *)
Theorem top_k_correct :
  (forall item_sup pair_sup (l : list (nat * nat)) res,
     top5_part_d TOP_K item_sup pair_sup l = Some res ->
     exists rules rest, rules_d item_sup pair_sup l = Some rules /\
       Permutation (res ++ rest) rules /\
       length res = Nat.min (Z.to_nat TOP_K) (length rules) /\
       Sorted ranked_before_d res /\
       (forall r r', In r res -> In r' rest ->
          ranked_before_d r r' /\ (conf_d r' <= conf_d r)%Q)) /\
  (forall pair_sup triple_sup (l : list (nat * nat * nat)) res,
     top5_part_e TOP_K pair_sup triple_sup l = Some res ->
     exists rules rest, rules_e pair_sup triple_sup l = Some rules /\
       Permutation (res ++ rest) rules /\
       length res = Nat.min (Z.to_nat TOP_K) (length rules) /\
       Sorted ranked_before_e res /\
       (forall r r', In r res -> In r' rest ->
          ranked_before_e r r' /\ (conf_e r' <= conf_e r)%Q)).
Proof.
  split.
  - intros item_sup pair_sup l res. unfold top5_part_d.
    destruct (rules_d item_sup pair_sup l) as [rules|] eqn:E; simpl; [|done].
    intros [= <-]. rewrite py_take_TOP_K.
    destruct (isort_take rule_leb_d rule_leb_d_total rule_leb_d_trans 5 rules)
      as (HP & Hlen & HS & Hlr).
    exists rules, (skipn 5 (isort rule_leb_d rules)).
    split; [done|]. split; [done|]. split; [done|]. split.
    + eapply Sorted_weaken; [|exact HS]. intros a b. apply rule_leb_d_spec.
    + intros r r' Hr Hr'. assert (Hb : ranked_before_d r r')
        by (apply rule_leb_d_spec; by apply Hlr).
      split; [done|]. by apply ranked_before_d_conf.
  - intros pair_sup triple_sup l res. unfold top5_part_e.
    destruct (rules_e pair_sup triple_sup l) as [rules|] eqn:E; simpl; [|done].
    intros [= <-]. rewrite py_take_TOP_K.
    destruct (isort_take rule_leb_e rule_leb_e_total rule_leb_e_trans 5 rules)
      as (HP & Hlen & HS & Hlr).
    exists rules, (skipn 5 (isort rule_leb_e rules)).
    split; [done|]. split; [done|]. split; [done|]. split.
    + eapply Sorted_weaken; [|exact HS]. intros a b. apply rule_leb_e_spec.
    + intros r r' Hr Hr'. assert (Hb : ranked_before_e r r')
        by (apply rule_leb_e_spec; by apply Hlr).
      split; [done|]. by apply ranked_before_e_conf.
Qed.

(** C3 (no zero or missing denominator): along the pipeline, the item
    supports of both items of every pair of [L2], and the pair supports of
    the three 2-subsets of every triple of [L3], are present in their
    mappings, positive and at least [MIN_SUPPORT]; hence [top5_part_d] and
    [top5_part_e] never raise [ZeroDivisionError] on the pipeline's tables. *)
Theorem confidence_denominators_nonzero (transactions : list (gset nat)) :
  let item_sup := (apriori_L1 MIN_SUPPORT transactions).1 in
  let L1 := (apriori_L1 MIN_SUPPORT transactions).2 in
  let pair_sup := (apriori_L2 MIN_SUPPORT transactions L1).1 in
  let L2 := (apriori_L2 MIN_SUPPORT transactions L1).2 in
  let triple_sup := (apriori_L3 MIN_SUPPORT transactions (apriori_C3_from_L2 L2)).1 in
  let L3 := (apriori_L3 MIN_SUPPORT transactions (apriori_C3_from_L2 L2)).2 in
  (forall a b, (a, b) ∈ L2 ->
     forall x, x = a \/ x = b ->
     exists c, item_sup !! x = Some c /\ (MIN_SUPPORT <= Z.of_nat c)%Z /\ 0 < c) /\
  (forall x y z, (x, y, z) ∈ L3 ->
     forall p, p = (x, y) \/ p = (x, z) \/ p = (y, z) ->
     exists c, pair_sup !! p = Some c /\ (MIN_SUPPORT <= Z.of_nat c)%Z /\ 0 < c) /\
  (exists d, top5_part_d TOP_K item_sup pair_sup (elements L2) = Some d) /\
  (exists e, top5_part_e TOP_K pair_sup triple_sup (elements L3) = Some e).
Proof.
  intros item_sup L1 pair_sup L2 triple_sup L3. split; [|split; [|split]].
  - intros a b Hab x Hx. apply L2_facts in Hab as (Ha & Hb & _).
    assert (HxL : In x L1) by (destruct Hx as [->| ->]; done).
    apply L1_in in HxL as (c & Hc & Hf). exists c. split; [done|].
    split; [unfold frequent in Hf; lia|]. by apply item_sup_value in Hc as [_ ?].
  - intros x y z Hxyz p Hp. apply L3_facts in Hxyz.
    assert (Hp2 : p ∈ L2) by (destruct Hp as [->|[->| ->]]; tauto).
    destruct p as [a b]. apply L2_facts in Hp2 as (_ & _ & _ & c & Hc & Hf & Hpos).
    exists c. split; [done|]. split; [unfold frequent in Hf; lia|done].
  - destruct (rules_d_some item_sup pair_sup (elements L2)) as [rs Hrs].
    + intros a b Hab. rewrite <- list_elem_of_In, elem_of_elements in Hab.
      destruct (pipeline_denominators_d MIN_SUPPORT transactions a b Hab).
      unfold item_sup. lia.
    + unfold top5_part_d. rewrite Hrs. by eexists.
  - destruct (rules_e_some pair_sup triple_sup (elements L3)) as [rs Hrs].
    + intros x y z Hxyz. rewrite <- list_elem_of_In, elem_of_elements in Hxyz.
      destruct (pipeline_denominators_e MIN_SUPPORT transactions x y z Hxyz) as (? & ? & ?).
      unfold pair_sup, L1. lia.
    + unfold top5_part_e. rewrite Hrs. by eexists.
Qed.

(** C4 (anti-monotonicity): both items of a pair of [L2] belong to [L1],
    and the three 2-subsets of a candidate triple of [C3], hence of a triple
    of [L3], belong to [L2]; for any [L1] and [L2] given to the functions. *)
Theorem anti_monotonicity (transactions : list (gset nat)) (L1 : list nat)
    (L2 : gset (nat * nat)) :
  (forall a b, (a, b) ∈ (apriori_L2 MIN_SUPPORT transactions L1).2 ->
               In a L1 /\ In b L1) /\
  (forall x y z, (x, y, z) ∈ apriori_C3_from_L2 L2 ->
                 (x, y) ∈ L2 /\ (x, z) ∈ L2 /\ (y, z) ∈ L2) /\
  (forall x y z, (x, y, z) ∈ (apriori_L3 MIN_SUPPORT transactions (apriori_C3_from_L2 L2)).2 ->
                 (x, y) ∈ L2 /\ (x, z) ∈ L2 /\ (y, z) ∈ L2).
Proof.
  split; [|split].
  - intros a b (Ha & Hb & _)%L2_facts. done.
  - intros x y z. apply C3_sound.
  - intros x y z. apply L3_facts.
Qed.

(** C5 (canonical form): along the pipeline every pair recorded in the
    pair-support mapping, in [C2] or in [L2] is strictly increasing, and
    every triple in [C3], recorded in the triple-support mapping or in [L3]
    is strictly increasing; so no itemset repeats an item. *)
Theorem canonical_form (transactions : list (gset nat)) :
  let L1 := (apriori_L1 MIN_SUPPORT transactions).2 in
  let pair_sup := (apriori_L2 MIN_SUPPORT transactions L1).1 in
  let L2 := (apriori_L2 MIN_SUPPORT transactions L1).2 in
  let C3 := apriori_C3_from_L2 L2 in
  let triple_sup := (apriori_L3 MIN_SUPPORT transactions C3).1 in
  let L3 := (apriori_L3 MIN_SUPPORT transactions C3).2 in
  (forall a b, is_Some (pair_sup !! (a, b)) \/ (a, b) ∈ C2_of L1 \/ (a, b) ∈ L2 -> a < b) /\
  (forall x y z, (x, y, z) ∈ C3 \/ is_Some (triple_sup !! (x, y, z)) \/ (x, y, z) ∈ L3 ->
                 x < y /\ y < z).
Proof.
  intros L1 pair_sup L2 C3 triple_sup L3. split.
  - intros a b [Hk|[HC|HL]].
    + apply count_pairs_key in Hk. tauto.
    + apply (C2_canonical L1); [apply L1_strict|done].
    + apply L2_facts in HL. tauto.
  - intros x y z H.
    assert (HC : (x, y, z) ∈ C3).
    { destruct H as [H|[Hk|HL]]; [done|..].
      - destruct Hk as [c Hc]. by eapply triple_sup_in_C3.
      - apply L3_in in HL as (c & Hc & _). by eapply triple_sup_in_C3. }
    by eapply C3_canonical.
Qed.

(** C6 (L1 and the threshold): [apriori_L1] returns [L1] strictly
    ascending, and an item is in [L1] exactly when the number of
    transactions containing it is at least [MIN_SUPPORT]: a support equal to
    [MIN_SUPPORT] is included, one less is excluded. *)
Theorem L1_sorted_threshold (transactions : list (gset nat)) :
  let L1 := (apriori_L1 MIN_SUPPORT transactions).2 in
  StronglySorted lt L1 /\
  (forall x, In x L1 <-> (MIN_SUPPORT <= Z.of_nat (support_item x transactions))%Z).
Proof.
  intros L1. split; [apply L1_strict|]. intros x. unfold L1. rewrite L1_in. split.
  - intros (c & Hc & Hf). apply item_sup_value in Hc as [-> _].
    unfold frequent in Hf. lia.
  - intros Hs. rewrite <- (item_sup_lookup0 MIN_SUPPORT) in Hs.
    unfold lookup0 in Hs. destruct ((apriori_L1 MIN_SUPPORT transactions).1 !! x) as [c|];
      simpl in Hs; [|unfold MIN_SUPPORT in Hs; lia].
    exists c. split; [done|]. unfold frequent. lia.
Qed.

(** The boundary of C6 on a concrete input: item 1 occurs in exactly
    [MIN_SUPPORT] transactions, item 2 in one fewer. *)
Example L1_boundary_example :
  (apriori_L1 MIN_SUPPORT (repeat {[1; 2]} 99 ++ [{[1]}])).2 = [1].
Proof. vm_compute. reflexivity. Qed.

(* ------------------------------------------------------------------ *)
(** ** Degenerate inputs *)

Lemma py_take_nil {A} (k : Z) : py_take k (@nil A) = [].
Proof. unfold py_take. by destruct (0 <=? k)%Z; rewrite firstn_nil. Qed.

Lemma apriori_L1_nil ms : apriori_L1 ms [] = (∅, []).
Proof.
  unfold apriori_L1. simpl. rewrite map_filter_empty, map_to_list_empty. reflexivity.
Qed.

Lemma apriori_L2_no_items ms transactions : (apriori_L2 ms transactions []).2 = ∅.
Proof.
  apply set_eq. intros [a b]. split; [|set_solver].
  intros (Ha & _)%L2_facts. destruct Ha.
Qed.

Lemma apriori_C3_from_L2_empty : apriori_C3_from_L2 ∅ = ∅.
Proof. reflexivity. Qed.

(** When there are candidates, [apriori_L3] scans every transaction. *)
Lemma apriori_L3_run_scanned ms transactions C3 :
  C3 <> ∅ -> (apriori_L3_run ms transactions C3).2 = length transactions.
Proof.
  intros Hne. unfold apriori_L3_run. rewrite decide_False by done.
  rewrite count_triples_eq. reflexivity.
Qed.

Lemma top5_part_d_nil tk item_sup pair_sup : top5_part_d tk item_sup pair_sup [] = Some [].
Proof. unfold top5_part_d. simpl. by rewrite py_take_nil. Qed.

Lemma top5_part_e_nil tk pair_sup triple_sup : top5_part_e tk pair_sup triple_sup [] = Some [].
Proof. unfold top5_part_e. simpl. by rewrite py_take_nil. Qed.

(** C7 (degenerate inputs): on an empty transaction sequence [L1], [L2]
    and [L3] are empty and the pipeline returns two empty rule lists without
    raising, whatever the configuration; an empty [L1] gives an empty [L2];
    an empty [L2] gives no candidate triple and an empty [L3]; an empty
    [C3] makes [apriori_L3] return at once, after scanning no transaction;
    and empty frequent sets give empty rule lists. *)
Theorem degenerate_inputs_empty :
  (forall ms tk,
     let L1 := (apriori_L1 ms []).2 in
     let L2 := (apriori_L2 ms [] L1).2 in
     L1 = [] /\ L2 = ∅ /\ (apriori_L3 ms [] (apriori_C3_from_L2 L2)).2 = ∅ /\
     pipeline ms tk [] = Some ([], [])) /\
  (forall ms transactions, (apriori_L2 ms transactions []).2 = ∅) /\
  apriori_C3_from_L2 ∅ = ∅ /\
  (forall ms transactions, apriori_L3 ms transactions (apriori_C3_from_L2 ∅) = (∅, ∅)) /\
  (forall ms transactions, apriori_L3_run ms transactions ∅ = (∅, ∅, 0)) /\
  (forall tk item_sup pair_sup,
     top5_part_d tk item_sup pair_sup (elements (∅ : gset (nat * nat))) = Some []) /\
  (forall tk pair_sup triple_sup,
     top5_part_e tk pair_sup triple_sup (elements (∅ : gset (nat * nat * nat))) = Some []).
Proof.
  split; [|split; [|split; [|split; [|split; [|split]]]]].
  - intros ms tk L1 L2.
    assert (E1 : L1 = []) by (unfold L1; by rewrite apriori_L1_nil).
    assert (E2 : L2 = ∅) by (unfold L2; rewrite E1; apply apriori_L2_no_items).
    split; [done|]. split; [done|].
    rewrite E2, apriori_C3_from_L2_empty. unfold apriori_L3. rewrite apriori_L3_empty.
    split; [done|].
    unfold pipeline. rewrite apriori_L1_nil. cbn [fst snd].
    destruct (apriori_L2 ms [] []) as [pair_sup L2'] eqn:EL2.
    assert (L2' = ∅) as ->.
    { pose proof (apriori_L2_no_items ms []) as H. by rewrite EL2 in H. }
    rewrite apriori_C3_from_L2_empty. unfold apriori_L3. rewrite apriori_L3_empty. simpl.
    rewrite elements_empty, top5_part_d_nil. simpl.
    by rewrite py_take_nil.
  - apply apriori_L2_no_items.
  - apply apriori_C3_from_L2_empty.
  - intros ms transactions. rewrite apriori_C3_from_L2_empty. unfold apriori_L3.
    by rewrite apriori_L3_empty.
  - apply apriori_L3_empty.
  - intros. rewrite elements_empty. apply top5_part_d_nil.
  - intros. rewrite elements_empty. apply top5_part_e_nil.
Qed.

(* ------------------------------------------------------------------ *)
(** ** Configuration *)

(** C8, counterexample: nothing rejects a configuration with
    [MIN_SUPPORT = 0] and [TOP_K = -1]. The pipeline runs on the scenario
    and returns rule lists: [rules[:-1]] silently drops the last rule of
    each ranking, leaving 5 pair rules and 2 triple rules. *)
Lemma config_not_rejected :
  match pipeline 0 (-1) scenario with
  | Some (d, e) => length d = 5 /\ length e = 2
  | None => False
  end.
Proof. vm_compute. split; reflexivity. Qed.

Lemma py_take_prefix {A} (k : Z) (l : list A) : exists dropped, l = py_take k l ++ dropped.
Proof.
  unfold py_take. destruct (0 <=? k)%Z; eexists; symmetry; apply firstn_skipn.
Qed.

Lemma py_take_neg {A} (k : Z) (l : list A) :
  (k < 0)%Z ->
  exists dropped, l = py_take k l ++ dropped /\
    length dropped = Nat.min (Z.to_nat (- k)) (length l).
Proof.
  intros Hk. unfold py_take. replace (0 <=? k)%Z with false by lia.
  exists (skipn (length l - Z.to_nat (- k)) l). split; [symmetry; apply firstn_skipn|].
  rewrite length_skipn. lia.
Qed.

(** C8, as the code has it: [MIN_SUPPORT] and [TOP_K] are module
    constants, 100 and 5, both positive. Nothing validates them: with any
    values, including [MIN_SUPPORT <= 0] or [TOP_K <= 0], the pipeline runs
    to completion without raising, and with [TOP_K = 0] both rule lists are
    empty. With a negative [TOP_K], [rules[:TOP_K]] keeps a prefix of each
    ranking and drops its last [|TOP_K|] rules (all of them when fewer
    exist). *)
Theorem config_unvalidated :
  MIN_SUPPORT = 100%Z /\ TOP_K = 5%Z /\
  (forall ms tk transactions, exists d e, pipeline ms tk transactions = Some (d, e)) /\
  (forall ms transactions, pipeline ms 0 transactions = Some ([], [])) /\
  (forall tk item_sup pair_sup l rd, (tk < 0)%Z -> rules_d item_sup pair_sup l = Some rd ->
     exists d dropped, top5_part_d tk item_sup pair_sup l = Some d /\
       isort rule_leb_d rd = d ++ dropped /\
       length dropped = Nat.min (Z.to_nat (- tk)) (length rd)) /\
  (forall tk pair_sup triple_sup l re, (tk < 0)%Z -> rules_e pair_sup triple_sup l = Some re ->
     exists e dropped, top5_part_e tk pair_sup triple_sup l = Some e /\
       isort rule_leb_e re = e ++ dropped /\
       length dropped = Nat.min (Z.to_nat (- tk)) (length re)).
Proof.
  split; [done|]. split; [done|]. split; [apply pipeline_total|]. split.
  { intros ms transactions. destruct (pipeline_total ms 0 transactions) as (d & e & He).
    rewrite He. apply pipeline_zero in He as [-> ->]. done. }
  split.
  - intros tk item_sup pair_sup l rd Htk Hrd. unfold top5_part_d. rewrite Hrd. simpl.
    destruct (py_take_neg tk (isort rule_leb_d rd) Htk) as (dropped & Heq & Hlen).
    exists (py_take tk (isort rule_leb_d rd)), dropped. split; [done|]. split; [done|].
    rewrite Hlen, (Permutation_length (isort_perm rule_leb_d rd)). done.
  - intros tk pair_sup triple_sup l re Htk Hre. unfold top5_part_e. rewrite Hre. simpl.
    destruct (py_take_neg tk (isort rule_leb_e re) Htk) as (dropped & Heq & Hlen).
    exists (py_take tk (isort rule_leb_e re)), dropped. split; [done|]. split; [done|].
    rewrite Hlen, (Permutation_length (isort_perm rule_leb_e re)). done.
Qed.

(* ------------------------------------------------------------------ *)
(** ** Determinism of the ranking *)

(** C9 (deterministic ranking): for fixed support mappings, [top5_part_d]
    and [top5_part_e] return the same ordered rule list for any two
    enumerations of the same frequent set: the result does not depend on
    the order in which the set is iterated, since the sort key orders the
    emitted rules totally. *)
Theorem ranking_deterministic :
  (forall item_sup pair_sup (L2 : gset (nat * nat)) (l : list (nat * nat)),
     List.NoDup l -> (forall p, In p l <-> p ∈ L2) ->
     top5_part_d TOP_K item_sup pair_sup l = top5_part_d TOP_K item_sup pair_sup (elements L2)) /\
  (forall pair_sup triple_sup (L3 : gset (nat * nat * nat)) (l : list (nat * nat * nat)),
     List.NoDup l -> (forall t, In t l <-> t ∈ L3) ->
     top5_part_e TOP_K pair_sup triple_sup l
     = top5_part_e TOP_K pair_sup triple_sup (elements L3)) /\
  (forall item_sup pair_sup (l l' : list (nat * nat)), Permutation l l' ->
     top5_part_d TOP_K item_sup pair_sup l = top5_part_d TOP_K item_sup pair_sup l') /\
  (forall pair_sup triple_sup (l l' : list (nat * nat * nat)), Permutation l l' ->
     top5_part_e TOP_K pair_sup triple_sup l = top5_part_e TOP_K pair_sup triple_sup l').
Proof.
  split; [|split; [|split]].
  - intros item_sup pair_sup L2 l Hnd Hin. apply top5_part_d_perm.
    apply Permutation.NoDup_Permutation; [done|apply NoDup_ListNoDup, NoDup_elements|].
    intros p. rewrite Hin, <- list_elem_of_In, elem_of_elements. done.
  - intros pair_sup triple_sup L3 l Hnd Hin. apply top5_part_e_perm.
    apply Permutation.NoDup_Permutation; [done|apply NoDup_ListNoDup, NoDup_elements|].
    intros t. rewrite Hin, <- list_elem_of_In, elem_of_elements. done.
  - intros. by apply top5_part_d_perm.
  - intros. by apply top5_part_e_perm.
Qed.

(* ------------------------------------------------------------------ *)
(** ** Zero-support candidates *)

(** C10 (no zero entries): along the pipeline, a pair is a key of the
    pair-support mapping exactly when it is in [C2] and some transaction
    contains both its items, and a triple is a key of the triple-support
    mapping exactly when it is in [C3] and some transaction contains its
    three items; every recorded support is positive, so a candidate of
    support 0 has no entry. *)
Theorem zero_support_absent (transactions : list (gset nat)) :
  let L1 := (apriori_L1 MIN_SUPPORT transactions).2 in
  let pair_sup := (apriori_L2 MIN_SUPPORT transactions L1).1 in
  let L2 := (apriori_L2 MIN_SUPPORT transactions L1).2 in
  let C3 := apriori_C3_from_L2 L2 in
  let triple_sup := (apriori_L3 MIN_SUPPORT transactions C3).1 in
  (forall a b, is_Some (pair_sup !! (a, b)) <->
     (a, b) ∈ C2_of L1 /\ exists t, In t transactions /\ a ∈ t /\ b ∈ t) /\
  (forall x y z, is_Some (triple_sup !! (x, y, z)) <->
     (x, y, z) ∈ C3 /\ exists t, In t transactions /\ x ∈ t /\ y ∈ t /\ z ∈ t) /\
  (forall p c, pair_sup !! p = Some c -> 0 < c) /\
  (forall tri c, triple_sup !! tri = Some c -> 0 < c).
Proof.
  intros L1 pair_sup L2 C3 triple_sup. split; [|split; [|split]].
  - intros a b. unfold pair_sup. simpl. rewrite count_pairs_key. split; [tauto|].
    intros [HC Ht]. split; [done|]. split; [|done].
    apply (C2_canonical L1); [apply L1_strict|done].
  - intros x y z. unfold triple_sup. rewrite triple_sup_key. split; [tauto|].
    intros [HC Ht]. pose proof (C3_canonical MIN_SUPPORT transactions L1 x y z HC). tauto.
  - intros [a b] c Hc. unfold pair_sup in Hc. simpl in Hc.
    apply count_pairs_value in Hc. lia.
  - intros [[x y] z] c Hc. apply triple_sup_value in Hc. lia.
Qed.

(* ================================================================== *)
(** * Further properties of the code *)

(* ------------------------------------------------------------------ *)
(** ** Loading transactions *)

Lemma lstrip_head s c r : lstrip s = c :: r -> py_isspace c = false.
Proof.
  induction s as [|d s IH]; simpl; [done|].
  destruct (py_isspace d) eqn:E; [apply IH|]. intros [= <- <-]. done.
Qed.

Lemma py_strip_nonspace s :
  py_strip s <> [] -> exists c, In c (py_strip s) /\ py_isspace c = false.
Proof.
  unfold py_strip. destruct (lstrip (rev (lstrip s))) as [|c r] eqn:E; simpl; [done|].
  intros _. exists c. split; [apply in_or_app; right; by left|]. by eapply lstrip_head.
Qed.

Lemma rev_cons_nonempty {A} (d : A) l : rev (d :: l) <> [].
Proof. simpl. destruct (rev l); discriminate. Qed.

Lemma split_ws_words cur s :
  Forall (fun c => py_isspace c = false) cur ->
  forall w, In w (split_ws cur s) -> w <> [] /\ Forall (fun c => py_isspace c = false) w.
Proof.
  revert cur. induction s as [|c s IH]; intros cur Hcur w; simpl.
  - destruct cur as [|d cur']; [done|]. intros [<-|[]].
    split; [apply rev_cons_nonempty|]. by apply Forall_rev.
  - destruct (py_isspace c) eqn:Ec.
    + destruct cur as [|d cur']; [by apply IH|]. intros [<-|Hw]; [|by apply (IH [])].
      split; [apply rev_cons_nonempty|]. by apply Forall_rev.
    + apply IH. by constructor.
Qed.

Lemma split_ws_nonempty cur s :
  cur <> [] \/ (exists c, In c s /\ py_isspace c = false) -> split_ws cur s <> [].
Proof.
  revert cur. induction s as [|c s IH]; intros cur H; simpl.
  - destruct cur; [|done]. destruct H as [H|(? & [] & _)]; done.
  - destruct (py_isspace c) eqn:Ec.
    + destruct cur as [|d cur']; [|done]. apply IH. right.
      destruct H as [H|(c' & [<-|Hc'] & Hs)]; [done|congruence|eauto].
    + apply IH. by left.
Qed.

Lemma list_to_set_nonempty {A} `{Countable A} (l : list A) :
  l <> [] -> (list_to_set l : gset A) <> ∅.
Proof.
  destruct l as [|x l]; [done|]. intros _ He.
  assert (Hx : x ∈ (list_to_set (x :: l) : gset A)).
  { apply elem_of_list_to_set. left. }
  rewrite He in Hx. set_solver.
Qed.

Lemma load_step_acc lines acc :
  fold_left load_step lines acc = acc ++ fold_left load_step lines [].
Proof.
  revert acc. induction lines as [|line lines IH]; intros acc; simpl; [by rewrite app_nil_r|].
  rewrite (IH (load_step acc line)), (IH (load_step [] line)).
  unfold load_step. destruct (py_strip line); simpl; [done|]. by rewrite <- app_assoc.
Qed.

Lemma load_lines_eq lines :
  fold_left load_step lines [] =
  map (fun line => list_to_set (py_split (py_strip line)))
      (List.filter (fun line => bool_decide (py_strip line <> [])) lines).
Proof.
  induction lines as [|line lines IH]; simpl; [done|].
  rewrite load_step_acc, IH. unfold load_step.
  destruct (py_strip line) eqn:E; simpl; [done|]. by rewrite E.
Qed.

Lemma translate_newlines_split b s s2 :
  translate_newlines b (s ++ 10%N :: s2)
  = translate_newlines b (s ++ [10%N]) ++ translate_newlines false s2.
Proof.
  revert b. induction s as [|c s IH]; intros b; simpl.
  - by destruct b.
  - destruct (N.eqb c 13); [by rewrite IH|].
    destruct (b && N.eqb c 10); [apply IH|]. by rewrite IH.
Qed.

Lemma translate_newlines_last b s :
  (exists u, translate_newlines b (s ++ [10%N]) = u ++ [10%N]) \/ (s = [] /\ b = true).
Proof.
  revert b. induction s as [|c s IH]; intros b; simpl.
  - destruct b; [by right|]. left. by exists [].
  - left. destruct (N.eqb c 13).
    + destruct (IH true) as [[u ->]|[-> _]]; [by exists (10%N :: u)|by exists []].
    + destruct (b && N.eqb c 10).
      * by destruct (IH false) as [[u ->]|[_ ?]]; [exists u|].
      * by destruct (IH false) as [[u ->]|[_ ?]]; [exists (c :: u)|].
Qed.

Lemma file_lines_split cur u v :
  file_lines cur (u ++ 10%N :: v) = file_lines cur (u ++ [10%N]) ++ file_lines [] v.
Proof.
  revert cur. induction u as [|c u IH]; intros cur; simpl; [done|].
  destruct (N.eqb c 10); [by rewrite IH|apply IH].
Qed.

Lemma file_lines_plain cur J :
  Forall (fun c => N.eqb c 10 = false) J ->
  file_lines cur (J ++ [10%N]) = [rev cur ++ J ++ [10%N]].
Proof.
  revert cur. induction J as [|c J IH]; intros cur HJ; simpl; [done|].
  inversion HJ as [|? ? Hc HJ']; subst. rewrite Hc, IH by done. simpl.
  by rewrite <- app_assoc.
Qed.

Lemma translate_newlines_plain b J X :
  J <> [] -> Forall (fun c => N.eqb c 13 = false /\ N.eqb c 10 = false) J ->
  translate_newlines b (J ++ X) = J ++ translate_newlines false X.
Proof.
  revert b. induction J as [|c J IH]; intros b HJ HF; [done|].
  inversion HF as [|? ? [H13 H10] HF']; subst. simpl. rewrite H13, H10, andb_false_r.
  destruct J as [|d J]; [done|]. f_equal. by apply IH.
Qed.

Lemma split_ws_word cur w X :
  Forall (fun c => py_isspace c = false) w ->
  split_ws cur (w ++ X) = split_ws (rev w ++ cur) X.
Proof.
  revert cur. induction w as [|c w IH]; intros cur Hw; [done|].
  inversion Hw as [|? ? Hc Hw']; subst. simpl. rewrite Hc, IH by done.
  by rewrite <- app_assoc.
Qed.

Lemma nonspace_plain c :
  py_isspace c = false -> N.eqb c 13 = false /\ N.eqb c 10 = false /\ N.eqb c 32 = false.
Proof.
  intros H. repeat split; apply N.eqb_neq; intros ->; discriminate H.
Qed.

Lemma join_words_plain row :
  Forall (fun w => w <> [] /\ Forall (fun c => py_isspace c = false) w) row ->
  Forall (fun c => N.eqb c 13 = false /\ N.eqb c 10 = false) (join_words row).
Proof.
  induction row as [|w row IH]; intros Hr; [constructor|].
  inversion Hr as [|? ? [_ Hw] Hr']; subst.
  assert (Hw' : Forall (fun c => N.eqb c 13 = false /\ N.eqb c 10 = false) w).
  { eapply Forall_impl; [exact Hw|]. intros c Hc. apply nonspace_plain in Hc. tauto. }
  destruct row as [|w' row]; [done|]. simpl.
  apply Forall_app. split; [done|]. constructor; [done|]. by apply IH.
Qed.

Lemma join_words_ends row :
  row <> [] -> Forall (fun w => w <> [] /\ Forall (fun c => py_isspace c = false) w) row ->
  (exists c J, join_words row = c :: J /\ py_isspace c = false) /\
  (exists J d, join_words row = J ++ [d] /\ py_isspace d = false).
Proof.
  induction row as [|w row IH]; intros Hne Hr; [done|].
  inversion Hr as [|? ? [Hw HFw] Hr']; subst.
  destruct w as [|c w]; [done|]. inversion HFw as [|? ? Hc _]; subst.
  split.
  - destruct row; simpl; eauto.
  - destruct row as [|w' row].
    + destruct (exists_last Hw) as (J & d & HJ). simpl. rewrite HJ.
      exists J, d. split; [done|]. rewrite HJ in HFw. apply Forall_app in HFw as [_ Hd].
      by inversion Hd.
    + destruct (IH ltac:(done) Hr') as [_ (J & d & HJ & Hd)].
      change (join_words ((c :: w) :: w' :: row)) with ((c :: w) ++ 32%N :: join_words (w' :: row)).
      rewrite HJ. exists ((c :: w) ++ 32%N :: J), d. split; [|done].
      by rewrite <- app_assoc.
Qed.

Lemma py_strip_row row :
  row <> [] -> Forall (fun w => w <> [] /\ Forall (fun c => py_isspace c = false) w) row ->
  py_strip (join_words row ++ [10%N]) = join_words row.
Proof.
  intros Hne Hr. destruct (join_words_ends row Hne Hr) as [(c & J1 & E1 & Hc) (J2 & d & E2 & Hd)].
  unfold py_strip. rewrite E1. simpl. rewrite Hc.
  change (c :: J1 ++ [10%N]) with ((c :: J1) ++ [10%N]). rewrite <- E1, E2.
  rewrite rev_app_distr. simpl. rewrite rev_app_distr. simpl. rewrite Hd.
  simpl. by rewrite rev_involutive.
Qed.

Lemma py_split_row row :
  row <> [] -> Forall (fun w => w <> [] /\ Forall (fun c => py_isspace c = false) w) row ->
  py_split (join_words row) = row.
Proof.
  unfold py_split. induction row as [|w row IH]; intros Hne Hr; [done|].
  inversion Hr as [|? ? [Hw HFw] Hr']; subst.
  destruct row as [|w' row].
  - simpl. rewrite <- (app_nil_r w) at 1. rewrite split_ws_word by done. simpl.
    rewrite app_nil_r. destruct (rev w) as [|x l] eqn:E.
    + by apply (f_equal (@rev _)) in E; rewrite rev_involutive in E.
    + rewrite <- E. by rewrite rev_involutive.
  - change (join_words (w :: w' :: row)) with (w ++ 32%N :: join_words (w' :: row)).
    rewrite split_ws_word by done. simpl. rewrite app_nil_r.
    destruct (rev w) as [|x l] eqn:E.
    + by apply (f_equal (@rev _)) in E; rewrite rev_involutive in E.
    + rewrite <- E, rev_involutive. f_equal. by apply IH.
Qed.

Lemma translate_render eol rows b :
  eol = [10%N] \/ eol = [13%N; 10%N] \/ eol = [13%N] ->
  Forall (fun row => row <> [] /\
    Forall (fun w => w <> [] /\ Forall (fun c => py_isspace c = false) w) row) rows ->
  translate_newlines b (render_transactions eol rows) = render_transactions [10%N] rows.
Proof.
  intros Heol. revert b. induction rows as [|row rows IH]; intros b Hrows; [done|].
  inversion Hrows as [|? ? [Hne Hr] Hrows']; subst. unfold render_transactions. simpl.
  rewrite <- !app_assoc.
  assert (HJ : join_words row <> []).
  { destruct (join_words_ends row Hne Hr) as [(c & J & -> & _) _]. done. }
  rewrite !translate_newlines_plain by (done || by apply join_words_plain).
  f_equal. fold (render_transactions eol rows) (render_transactions [10%N] rows).
  destruct Heol as [->|[->| ->]]; simpl; f_equal; by apply IH.
Qed.

Lemma file_lines_render rows :
  Forall (fun row => row <> [] /\
    Forall (fun w => w <> [] /\ Forall (fun c => py_isspace c = false) w) row) rows ->
  file_lines [] (render_transactions [10%N] rows) = map (fun row => join_words row ++ [10%N]) rows.
Proof.
  induction rows as [|row rows IH]; intros Hrows; [done|].
  inversion Hrows as [|? ? [Hne Hr] Hrows']; subst. unfold render_transactions. simpl.
  rewrite <- app_assoc. simpl. rewrite file_lines_split, file_lines_plain.
  - simpl. f_equal. by apply IH.
  - eapply Forall_impl; [by apply join_words_plain|]. intros c [_ ?]. done.
Qed.

(** The loop of [load_transactions] only keeps lines with an item, and
    [set(line.split())] makes every item a non-empty string without
    whitespace: every loaded transaction is a non-empty set of non-empty
    items free of whitespace. *)
Theorem load_transactions_wf (text : list N) :
  Forall (fun t => t <> ∅ /\
            forall w, w ∈ t -> w <> [] /\ Forall (fun c => py_isspace c = false) w)
         (load_transactions text).
Proof.
  unfold load_transactions. rewrite load_lines_eq. apply List.Forall_forall.
  intros t (line & <- & Hl)%in_map_iff.
  apply filter_In in Hl as [_ Hne%bool_decide_eq_true].
  pose proof (py_strip_nonspace line Hne) as Hc. split.
  - apply list_to_set_nonempty. unfold py_split. apply split_ws_nonempty. by right.
  - intros w Hw%elem_of_list_to_set%list_elem_of_In.
    eapply (split_ws_words []); [constructor|exact Hw].
Qed.

(** Loading the concatenation of two files, the first ending with a line
    break, gives the transactions of the first followed by those of the
    second. *)
Theorem load_transactions_app (text1 text2 : list N) :
  last text1 = Some 10%N ->
  load_transactions (text1 ++ text2) = load_transactions text1 ++ load_transactions text2.
Proof.
  intros (s & ->)%last_Some. unfold load_transactions.
  rewrite <- app_assoc. simpl. rewrite translate_newlines_split.
  destruct (translate_newlines_last false s) as [[u Hu]|[_ ?]]; [|done].
  rewrite Hu, <- app_assoc. simpl. rewrite file_lines_split.
  rewrite fold_left_app, load_step_acc. done.
Qed.

(** Round trip: a file with one transaction per line, items separated by a
    space and lines ended by ["\n"], ["\r\n"] or ["\r"], loads as the sets
    of the items of its lines, in order. *)
Theorem load_transactions_render (eol : list N) (rows : list (list (list N))) :
  eol = [10%N] \/ eol = [13%N; 10%N] \/ eol = [13%N] ->
  Forall (fun row => row <> [] /\
    Forall (fun w => w <> [] /\ Forall (fun c => py_isspace c = false) w) row) rows ->
  load_transactions (render_transactions eol rows) = map list_to_set rows.
Proof.
  intros Heol Hrows. unfold load_transactions.
  rewrite translate_render, file_lines_render, load_lines_eq by done.
  induction rows as [|row rows IH]; [done|].
  inversion Hrows as [|? ? [Hne Hr] Hrows']; subst. simpl.
  rewrite py_strip_row by done. rewrite bool_decide_true.
  - cbn [map]. rewrite py_strip_row, py_split_row by done. f_equal. by apply IH.
  - destruct (join_words_ends row Hne Hr) as [(c & J & -> & _) _]. done.
Qed.

(* ------------------------------------------------------------------ *)
(** ** Supports of nested itemsets *)

Lemma filter_length_mono {A} (f g : A -> bool) (l : list A) :
  (forall x, f x = true -> g x = true) ->
  length (List.filter f l) <= length (List.filter g l).
Proof.
  intros Hfg. induction l as [|x l IH]; simpl; [done|].
  destruct (f x) eqn:Ef; [rewrite (Hfg x Ef); simpl; lia|]. destruct (g x); simpl; lia.
Qed.

Lemma filter_length_pos {A} (f : A -> bool) (l : list A) :
  0 < length (List.filter f l) <-> exists x, In x l /\ f x = true.
Proof.
  induction l as [|x l IH]; simpl; [split; [lia|intros (? & [] & _)]|].
  destruct (f x) eqn:Ef; simpl.
  - split; [intros _; eauto|lia].
  - rewrite IH. split; [intros (y & ? & ?); eauto|].
    intros (y & [<-|?] & ?); [congruence|eauto].
Qed.

Lemma filter_length_perm {A} (f : A -> bool) (l l' : list A) :
  Permutation l l' -> length (List.filter f l) = length (List.filter f l').
Proof.
  induction 1 as [|x l l' _ IH|x y l|l l' l'' _ IH1 _ IH2]; simpl.
  - done.
  - destruct (f x); simpl; lia.
  - destruct (f x), (f y); simpl; lia.
  - lia.
Qed.

Lemma support_pair_le_item a b transactions :
  support_pair (a, b) transactions <= support_item a transactions /\
  support_pair (a, b) transactions <= support_item b transactions.
Proof.
  split; apply filter_length_mono; intros t Ht; apply bool_decide_eq_true in Ht;
    apply bool_decide_eq_true; simpl in Ht; tauto.
Qed.

Lemma support_triple_le_pair x y z transactions :
  support_triple (x, y, z) transactions <= support_pair (x, y) transactions /\
  support_triple (x, y, z) transactions <= support_pair (x, z) transactions /\
  support_triple (x, y, z) transactions <= support_pair (y, z) transactions.
Proof.
  split; [|split]; apply filter_length_mono; intros t Ht; apply bool_decide_eq_true in Ht;
    apply bool_decide_eq_true; simpl in Ht; simpl; tauto.
Qed.

Lemma support_pair_pos a b transactions :
  0 < support_pair (a, b) transactions <-> exists t, In t transactions /\ a ∈ t /\ b ∈ t.
Proof.
  unfold support_pair. rewrite filter_length_pos. simpl.
  setoid_rewrite bool_decide_eq_true. done.
Qed.

Lemma support_triple_pos x y z transactions :
  0 < support_triple (x, y, z) transactions <->
  exists t, In t transactions /\ x ∈ t /\ y ∈ t /\ z ∈ t.
Proof.
  unfold support_triple. rewrite filter_length_pos. simpl.
  setoid_rewrite bool_decide_eq_true. done.
Qed.

(* ------------------------------------------------------------------ *)
(** ** The index [by_first] and the join *)

Lemma by_first_fold (l : list (nat * nat)) (m : gmap nat (gset nat)) a b :
  (exists bs, fold_left (fun m (ab : nat * nat) =>
       <[ab.1 := {[ab.2]} ∪ default ∅ (m !! ab.1)]> m) l m !! a = Some bs /\ b ∈ bs) <->
  (exists bs, m !! a = Some bs /\ b ∈ bs) \/ In (a, b) l.
Proof.
  revert m. induction l as [|[a' b'] l IH]; intros m; simpl; [tauto|].
  rewrite IH. rewrite lookup_insert. case_decide as Ha; simpl.
  - subst a'. split.
    + intros [(bs & [= <-] & Hb)|Hin]; [|tauto].
      apply elem_of_union in Hb as [->%elem_of_singleton|Hb]; [tauto|].
      destruct (m !! a) as [bs|]; simpl in Hb; [left; eauto|set_solver].
    + intros [(bs & Hm & Hb)|[Heq|Hin]]; [|inversion Heq; subst|tauto].
      * left. eexists. split; [done|]. rewrite Hm. simpl. set_solver.
      * left. eexists. split; [done|]. set_solver.
  - split.
    + intros [H|H]; [by left|tauto].
    + intros [H|[Heq|H]]; [by left|by inversion Heq|tauto].
Qed.

Lemma by_first_of_spec L2 a b :
  (exists bs, by_first_of L2 !! a = Some bs /\ b ∈ bs) <-> (a, b) ∈ L2.
Proof.
  unfold by_first_of. rewrite by_first_fold, lookup_empty, <- list_elem_of_In, elem_of_elements.
  split; [intros [(? & ? & _)|?]; done|tauto].
Qed.

Lemma C3_inner_fold (L2 : gset (nat * nat)) (a : nat) (ps : list (nat * nat))
    (acc : gset (nat * nat * nat)) (tri : nat * nat * nat) :
  tri ∈ fold_left (fun C3 (bc : nat * nat) =>
    if decide ((a, bc.1) ∈ L2 /\ (a, bc.2) ∈ L2 /\ (bc.1, bc.2) ∈ L2)
    then {[(a, bc.1, bc.2)]} ∪ C3 else C3) ps acc <->
  tri ∈ acc \/ exists b c, In (b, c) ps /\ tri = (a, b, c) /\
                         (a, b) ∈ L2 /\ (a, c) ∈ L2 /\ (b, c) ∈ L2.
Proof.
  revert acc. induction ps as [|[b c] ps IH]; intros acc; simpl.
  - split; [tauto|]. intros [?|(? & ? & [] & _)]; done.
  - rewrite IH. case_decide as Hd; simpl.
    + rewrite elem_of_union, elem_of_singleton. naive_solver.
    + naive_solver.
Qed.

Lemma C3_outer_fold (L2 : gset (nat * nat)) (l : list (nat * gset nat))
    (acc : gset (nat * nat * nat)) (tri : nat * nat * nat) :
  tri ∈ fold_left (fun C3 (abs : nat * gset nat) =>
    fold_left (fun C3 (bc : nat * nat) =>
      if decide ((abs.1, bc.1) ∈ L2 /\ (abs.1, bc.2) ∈ L2 /\ (bc.1, bc.2) ∈ L2)
      then {[(abs.1, bc.1, bc.2)]} ∪ C3 else C3)
      (pairs_of (sorted (elements abs.2))) C3) l acc <->
  tri ∈ acc \/ exists a bs b c, In (a, bs) l /\ In (b, c) (pairs_of (sorted (elements bs))) /\
                 tri = (a, b, c) /\ (a, b) ∈ L2 /\ (a, c) ∈ L2 /\ (b, c) ∈ L2.
Proof.
  revert acc. induction l as [|[a bs] l IH]; intros acc; simpl.
  - split; [tauto|]. intros [?|(? & ? & ? & ? & [] & _)]; done.
  - rewrite IH, C3_inner_fold. split.
    + intros [[H|(b & c & H)]|(a' & bs' & b & c & H)]; [tauto| |].
      * right. exists a, bs, b, c. tauto.
      * right. exists a', bs', b, c. tauto.
    + intros [H|(a' & bs' & b & c & [[= <- <-]|H] & R)].
      * tauto.
      * left. right. exists b, c. tauto.
      * right. exists a', bs', b, c. tauto.
Qed.

Lemma in_pairs_of_elements (bs : gset nat) b c :
  In (b, c) (pairs_of (sorted (elements bs))) <-> b ∈ bs /\ c ∈ bs /\ b < c.
Proof.
  rewrite pairs_of_in_sorted by apply elements_strict.
  rewrite !sorted_in, <- !list_elem_of_In, !elem_of_elements. done.
Qed.

Lemma C3_exact_aux (L2 : gset (nat * nat)) x y z :
  (x, y, z) ∈ apriori_C3_from_L2 L2 <->
  y < z /\ (x, y) ∈ L2 /\ (x, z) ∈ L2 /\ (y, z) ∈ L2.
Proof.
  unfold apriori_C3_from_L2. cbv zeta. rewrite C3_outer_fold. split.
  - intros [H|(a & bs & b & c & Hin & Hbc & [= -> -> ->] & G)]; [set_solver|].
    apply in_pairs_of_elements in Hbc. tauto.
  - intros (Hyz & Hxy & Hxz & Hyz2). right.
    destruct (proj2 (by_first_of_spec L2 x y) Hxy) as (bs & Hbs & Hy).
    destruct (proj2 (by_first_of_spec L2 x z) Hxz) as (bs' & Hbs' & Hz).
    rewrite Hbs in Hbs'. injection Hbs' as <-.
    exists x, bs, y, z. split; [apply list_elem_of_In, elem_of_map_to_list; done|].
    split; [by apply in_pairs_of_elements|]. tauto.
Qed.

(** The candidate triples of [apriori_C3_from_L2] are exactly the triples
    [(a, b, c)] with [b < c] whose three 2-subsets are all in [L2]: the join
    loses no triple whose subsets are frequent. *)
Theorem C3_exact (L2 : gset (nat * nat)) x y z :
  (x, y, z) ∈ apriori_C3_from_L2 L2 <->
  y < z /\ (x, y) ∈ L2 /\ (x, z) ∈ L2 /\ (y, z) ∈ L2.
Proof. apply C3_exact_aux. Qed.

(* ------------------------------------------------------------------ *)
(** ** What the levels compute *)

Lemma L1_exact_aux (ms : Z) (transactions : list (gset nat)) x :
  In x (apriori_L1 ms transactions).2 <->
  (ms <= Z.of_nat (support_item x transactions))%Z /\ 0 < support_item x transactions.
Proof.
  rewrite L1_in. split.
  - intros (c & Hc & Hf). apply item_sup_value in Hc as [-> Hpos].
    unfold frequent in Hf. lia.
  - intros [Hf Hpos]. pose proof (item_sup_lookup0 ms transactions x) as H.
    unfold lookup0 in H. destruct ((apriori_L1 ms transactions).1 !! x) as [c|];
      simpl in H; [|lia].
    exists c. split; [done|]. unfold frequent. lia.
Qed.

(** For any threshold, [L1] holds exactly the items that occur in some
    transaction and whose support reaches the threshold: with a threshold
    [<= 0] an item that occurs nowhere is still left out, since only items
    met in the scan have a count. *)
Theorem L1_exact (ms : Z) (transactions : list (gset nat)) x :
  In x (apriori_L1 ms transactions).2 <->
  (ms <= Z.of_nat (support_item x transactions))%Z /\ 0 < support_item x transactions.
Proof. apply L1_exact_aux. Qed.

Lemma L2_exact_aux ms transactions a b :
  (a, b) ∈ (apriori_L2 ms transactions (apriori_L1 ms transactions).2).2 <->
  a < b /\ (ms <= Z.of_nat (support_pair (a, b) transactions))%Z /\
  0 < support_pair (a, b) transactions.
Proof.
  split.
  - intros H. apply L2_facts in H as (_ & _ & Hab & c & Hc & Hf & Hpos).
    simpl in Hc. apply count_pairs_value in Hc as [-> _]. unfold frequent in Hf. lia.
  - intros (Hab & Hf & Hpos). apply L2_in.
    destruct (support_pair_le_item a b transactions) as [Ha Hb].
    assert (Hk : is_Some (count_pairs (apriori_L1 ms transactions).2 transactions !! (a, b))).
    { apply count_pairs_key. split; [|split; [done|by apply support_pair_pos]].
      apply C2_of_in, pairs_of_in_sorted; [apply L1_strict|].
      rewrite !L1_exact_aux. lia. }
    destruct Hk as [c Hc]. exists c. split; [done|].
    apply count_pairs_value in Hc as [-> _]. unfold frequent. lia.
Qed.

(** Along the pipeline, for any threshold, [L2] holds exactly the pairs
    [(a, b)] with [a < b] that occur together in some transaction and whose
    support reaches the threshold. *)
Theorem L2_exact (ms : Z) (transactions : list (gset nat)) a b :
  let L1 := (apriori_L1 ms transactions).2 in
  (a, b) ∈ (apriori_L2 ms transactions L1).2 <->
  a < b /\ (ms <= Z.of_nat (support_pair (a, b) transactions))%Z /\
  0 < support_pair (a, b) transactions.
Proof. apply L2_exact_aux. Qed.

Lemma L3_exact_aux ms transactions x y z :
  (x, y, z) ∈ (apriori_L3 ms transactions
     (apriori_C3_from_L2 (apriori_L2 ms transactions (apriori_L1 ms transactions).2).2)).2 <->
  x < y /\ y < z /\ (ms <= Z.of_nat (support_triple (x, y, z) transactions))%Z /\
  0 < support_triple (x, y, z) transactions.
Proof.
  rewrite L3_in. split.
  - intros (c & Hc & Hf).
    pose proof (triple_sup_in_C3 _ _ _ _ _ Hc) as HC.
    apply C3_canonical in HC as [Hxy Hyz].
    apply triple_sup_value in Hc as [-> Hpos]. unfold frequent in Hf. lia.
  - intros (Hxy & Hyz & Hf & Hpos).
    destruct (support_triple_le_pair x y z transactions) as (H1 & H2 & H3).
    assert (Hk : is_Some ((apriori_L3 ms transactions (apriori_C3_from_L2
                   (apriori_L2 ms transactions (apriori_L1 ms transactions).2).2)).1 !! (x, y, z))).
    { apply triple_sup_key. split; [|split; [done|split; [done|by apply support_triple_pos]]].
      apply C3_exact_aux. rewrite !L2_exact_aux. lia. }
    destruct Hk as [c Hc]. exists c. split; [done|].
    apply triple_sup_value in Hc as [-> _]. unfold frequent. lia.
Qed.

(** Along the pipeline, for any threshold, [L3] holds exactly the triples
    [(x, y, z)] with [x < y < z] that occur together in some transaction and
    whose support reaches the threshold: the level-wise search finds every
    frequent triple. *)
Theorem L3_exact (ms : Z) (transactions : list (gset nat)) x y z :
  let L1 := (apriori_L1 ms transactions).2 in
  let L2 := (apriori_L2 ms transactions L1).2 in
  (x, y, z) ∈ (apriori_L3 ms transactions (apriori_C3_from_L2 L2)).2 <->
  x < y /\ y < z /\ (ms <= Z.of_nat (support_triple (x, y, z) transactions))%Z /\
  0 < support_triple (x, y, z) transactions.
Proof. apply L3_exact_aux. Qed.

(** Raising the threshold can only remove itemsets: with [ms <= ms'],
    every level computed at [ms'] is included in the one computed at
    [ms]. *)
Theorem threshold_monotone (ms ms' : Z) (transactions : list (gset nat)) :
  (ms <= ms')%Z ->
  (forall x, In x (apriori_L1 ms' transactions).2 -> In x (apriori_L1 ms transactions).2) /\
  (forall p, p ∈ (apriori_L2 ms' transactions (apriori_L1 ms' transactions).2).2 ->
             p ∈ (apriori_L2 ms transactions (apriori_L1 ms transactions).2).2) /\
  (forall tri,
     tri ∈ (apriori_L3 ms' transactions (apriori_C3_from_L2
              (apriori_L2 ms' transactions (apriori_L1 ms' transactions).2).2)).2 ->
     tri ∈ (apriori_L3 ms transactions (apriori_C3_from_L2
              (apriori_L2 ms transactions (apriori_L1 ms transactions).2).2)).2).
Proof.
  intros Hle. split; [|split].
  - intros x. rewrite !L1_exact_aux. lia.
  - intros [a b]. rewrite !L2_exact_aux. lia.
  - intros [[x y] z]. rewrite !L3_exact_aux. lia.
Qed.

(* ------------------------------------------------------------------ *)
(** ** The emitted rules *)

Lemma rules_d_in item_sup pair_sup l rs r :
  rules_d item_sup pair_sup l = Some rs -> In r rs ->
  exists a b, In (a, b) l /\
    ((lhs_d r = a /\ rhs_d r = b) \/ (lhs_d r = b /\ rhs_d r = a)) /\
    sup_d r = lookup0 pair_sup (a, b).
Proof.
  revert rs. induction l as [|[a b] l IH]; intros rs; simpl; [intros [= <-]; done|].
  destruct (py_div _ (lookup0 item_sup a)) as [c1|]; [|done]. simpl.
  destruct (py_div _ (lookup0 item_sup b)) as [c2|]; [|done]. simpl.
  destruct (rules_d item_sup pair_sup l) as [rest|] eqn:E3; [|done]. simpl.
  intros [= <-] [<-|[<-|Hr]].
  - exists a, b. simpl. auto.
  - exists a, b. simpl. auto.
  - destruct (IH rest eq_refl Hr) as (a' & b' & ? & ? & ?). exists a', b'. auto.
Qed.

Lemma rules_e_in pair_sup triple_sup l rs r :
  rules_e pair_sup triple_sup l = Some rs -> In r rs ->
  exists x y z, In (x, y, z) l /\
    ((lhs_e r = (x, y) /\ rhs_e r = z) \/ (lhs_e r = (x, z) /\ rhs_e r = y) \/
     (lhs_e r = (y, z) /\ rhs_e r = x)) /\
    sup_e r = lookup0 triple_sup (x, y, z).
Proof.
  revert rs. induction l as [|[[x y] z] l IH]; intros rs; simpl; [intros [= <-]; done|].
  destruct (py_div _ (lookup0 pair_sup (x, y))) as [c1|]; [|done]. simpl.
  destruct (py_div _ (lookup0 pair_sup (x, z))) as [c2|]; [|done]. simpl.
  destruct (py_div _ (lookup0 pair_sup (y, z))) as [c3|]; [|done]. simpl.
  destruct (rules_e pair_sup triple_sup l) as [rest|] eqn:E4; [|done]. simpl.
  intros [= <-] [<-|[<-|[<-|Hr]]].
  - exists x, y, z. simpl. naive_solver.
  - exists x, y, z. simpl. naive_solver.
  - exists x, y, z. simpl. naive_solver.
  - destruct (IH rest eq_refl Hr) as (x' & y' & z' & ? & ? & ?). exists x', y', z'. auto.
Qed.

Lemma rules_d_length item_sup pair_sup l rs :
  rules_d item_sup pair_sup l = Some rs -> length rs = 2 * length l.
Proof.
  revert rs. induction l as [|[a b] l IH]; intros rs; simpl; [intros [= <-]; done|].
  destruct (py_div _ (lookup0 item_sup a)); [|done]. simpl.
  destruct (py_div _ (lookup0 item_sup b)); [|done]. simpl.
  destruct (rules_d item_sup pair_sup l) as [rest|] eqn:E3; [|done]. simpl.
  intros [= <-]. simpl. rewrite (IH rest eq_refl). lia.
Qed.

Lemma rules_e_length pair_sup triple_sup l rs :
  rules_e pair_sup triple_sup l = Some rs -> length rs = 3 * length l.
Proof.
  revert rs. induction l as [|[[x y] z] l IH]; intros rs; simpl; [intros [= <-]; done|].
  destruct (py_div _ (lookup0 pair_sup (x, y))); [|done]. simpl.
  destruct (py_div _ (lookup0 pair_sup (x, z))); [|done]. simpl.
  destruct (py_div _ (lookup0 pair_sup (y, z))); [|done]. simpl.
  destruct (rules_e pair_sup triple_sup l) as [rest|] eqn:E4; [|done]. simpl.
  intros [= <-]. simpl. rewrite (IH rest eq_refl). lia.
Qed.

Lemma py_take_in {A} (k : Z) (l : list A) x : In x (py_take k l) -> In x l.
Proof.
  unfold py_take. intros H. rewrite <- (firstn_skipn (if (0 <=? k)%Z then Z.to_nat k
    else length l - Z.to_nat (- k)) l). apply in_or_app. left.
  by destruct (0 <=? k)%Z.
Qed.

Lemma length_py_take {A} (k : Z) (l : list A) :
  length (py_take k l) =
  if (0 <=? k)%Z then Nat.min (Z.to_nat k) (length l) else length l - Z.to_nat (- k).
Proof.
  unfold py_take. destruct (0 <=? k)%Z; rewrite length_firstn; lia.
Qed.

Lemma size_elements_length {A} `{Countable A} (X : gset A) : length (elements X) = size X.
Proof. reflexivity. Qed.

Lemma pipeline_inv ms tk transactions d e :
  pipeline ms tk transactions = Some (d, e) ->
  exists rd re,
    rules_d (apriori_L1 ms transactions).1
      (apriori_L2 ms transactions (apriori_L1 ms transactions).2).1
      (elements (apriori_L2 ms transactions (apriori_L1 ms transactions).2).2) = Some rd /\
    d = py_take tk (isort rule_leb_d rd) /\
    rules_e (apriori_L2 ms transactions (apriori_L1 ms transactions).2).1
      (apriori_L3 ms transactions (apriori_C3_from_L2
         (apriori_L2 ms transactions (apriori_L1 ms transactions).2).2)).1
      (elements (apriori_L3 ms transactions (apriori_C3_from_L2
         (apriori_L2 ms transactions (apriori_L1 ms transactions).2).2)).2) = Some re /\
    e = py_take tk (isort rule_leb_e re).
Proof.
  unfold pipeline.
  destruct (apriori_L1 ms transactions) as [item_sup L1] eqn:E1; cbn [fst snd].
  destruct (apriori_L2 ms transactions L1) as [pair_sup L2] eqn:E2; cbn [fst snd].
  destruct (apriori_L3 ms transactions (apriori_C3_from_L2 L2)) as [triple_sup L3] eqn:E3;
    cbn [fst snd].
  unfold top5_part_d, top5_part_e.
  destruct (rules_d item_sup pair_sup (elements L2)) as [rd|]; simpl; [|done].
  destruct (rules_e pair_sup triple_sup (elements L3)) as [re|]; simpl; [|done].
  intros [= <- <-]. eauto 10.
Qed.

Lemma pos_of_nat_Z n : n <> 0 -> Z.pos (Pos.of_nat n) = Z.of_nat n.
Proof. intros Hn. rewrite <- positive_nat_Z, Nat2Pos.id; done. Qed.

Lemma confidence_facts s D :
  0 < s -> s <= D ->
  (Qred (Z.of_nat s # Pos.of_nat D) * inject_Z (Z.of_nat D) == inject_Z (Z.of_nat s))%Q /\
  (0 < Qred (Z.of_nat s # Pos.of_nat D))%Q /\ (Qred (Z.of_nat s # Pos.of_nat D) <= 1)%Q.
Proof.
  intros Hs HD. rewrite !Qred_correct.
  assert (HP : Z.pos (Pos.of_nat D) = Z.of_nat D) by (apply pos_of_nat_Z; lia).
  unfold Qeq, Qlt, Qle, Qmult, inject_Z. simpl. rewrite HP. repeat split; nia.
Qed.

Lemma pair_sup_lookup0 ms transactions a b :
  (a, b) ∈ (apriori_L2 ms transactions (apriori_L1 ms transactions).2).2 ->
  lookup0 (apriori_L2 ms transactions (apriori_L1 ms transactions).2).1 (a, b)
  = support_pair (a, b) transactions /\ 0 < support_pair (a, b) transactions.
Proof.
  intros (_ & _ & _ & c & Hc & _ & Hpos)%L2_facts. unfold lookup0. rewrite Hc. simpl.
  simpl in Hc. apply count_pairs_value in Hc as [-> _]. done.
Qed.

(** Every rule of part (d) returned by the pipeline comes from a frequent
    pair [(a, b)], in one direction or the other; it carries the support of
    the pair, its confidence times the support of its LHS item is that
    support, and the confidence lies in (0, 1]. *)
Theorem pipeline_rules_d (ms tk : Z) (transactions : list (gset nat)) d e :
  pipeline ms tk transactions = Some (d, e) ->
  forall r, In r d ->
  exists a b, (a, b) ∈ (apriori_L2 ms transactions (apriori_L1 ms transactions).2).2 /\
    ((lhs_d r = a /\ rhs_d r = b) \/ (lhs_d r = b /\ rhs_d r = a)) /\
    sup_d r = support_pair (a, b) transactions /\
    (conf_d r * inject_Z (Z.of_nat (support_item (lhs_d r) transactions))
       == inject_Z (Z.of_nat (sup_d r)))%Q /\
    (0 < conf_d r)%Q /\ (conf_d r <= 1)%Q.
Proof.
  intros H r Hr. destruct (pipeline_inv _ _ _ _ _ H) as (rd & re & Hrd & -> & _ & _).
  apply py_take_in in Hr. apply (Permutation_in _ (isort_perm rule_leb_d rd)) in Hr.
  destruct (rules_d_ok _ _ _ _ Hrd r Hr) as [Hnz Hconf].
  destruct (rules_d_in _ _ _ _ _ Hrd Hr) as (a & b & Hab & Hdir & Hsup).
  rewrite <- list_elem_of_In, elem_of_elements in Hab.
  destruct (pair_sup_lookup0 _ _ _ _ Hab) as [Hl Hpos].
  exists a, b. split; [done|]. split; [done|]. rewrite Hsup, Hl. split; [done|].
  rewrite Hconf, Hsup, Hl, item_sup_lookup0.
  destruct (support_pair_le_item a b transactions).
  apply confidence_facts; [done|]. destruct Hdir as [[-> _]|[-> _]]; done.
Qed.

(** Every rule of part (e) returned by the pipeline comes from a frequent
    triple [(x, y, z)], as [(x, y) => z], [(x, z) => y] or [(y, z) => x];
    it carries the support of the triple, its confidence times the support
    of its LHS pair is that support, and the confidence lies in (0, 1]. *)
Theorem pipeline_rules_e (ms tk : Z) (transactions : list (gset nat)) d e :
  pipeline ms tk transactions = Some (d, e) ->
  forall r, In r e ->
  exists x y z,
    (x, y, z) ∈ (apriori_L3 ms transactions (apriori_C3_from_L2
                   (apriori_L2 ms transactions (apriori_L1 ms transactions).2).2)).2 /\
    ((lhs_e r = (x, y) /\ rhs_e r = z) \/ (lhs_e r = (x, z) /\ rhs_e r = y) \/
     (lhs_e r = (y, z) /\ rhs_e r = x)) /\
    sup_e r = support_triple (x, y, z) transactions /\
    (conf_e r * inject_Z (Z.of_nat (support_pair (lhs_e r) transactions))
       == inject_Z (Z.of_nat (sup_e r)))%Q /\
    (0 < conf_e r)%Q /\ (conf_e r <= 1)%Q.
Proof.
  intros H r Hr. destruct (pipeline_inv _ _ _ _ _ H) as (rd & re & _ & _ & Hre & ->).
  apply py_take_in in Hr. apply (Permutation_in _ (isort_perm rule_leb_e re)) in Hr.
  destruct (rules_e_ok _ _ _ _ Hre r Hr) as [Hnz Hconf].
  destruct (rules_e_in _ _ _ _ _ Hre Hr) as (x & y & z & Hxyz & Hdir & Hsup).
  rewrite <- list_elem_of_In, elem_of_elements in Hxyz.
  pose proof Hxyz as HL3. apply L3_in in HL3 as (c & Hc & _).
  pose proof Hc as Hc'. apply triple_sup_value in Hc' as [Hcv Hpos].
  assert (Hl : lookup0 (apriori_L3 ms transactions (apriori_C3_from_L2
                 (apriori_L2 ms transactions (apriori_L1 ms transactions).2).2)).1 (x, y, z)
               = support_triple (x, y, z) transactions)
    by (unfold lookup0; rewrite Hc; simpl; done).
  apply L3_facts in Hxyz as Hpairs. destruct Hpairs as (Hxy & Hxz & Hyz).
  exists x, y, z. split; [done|]. split; [done|]. rewrite Hsup, Hl. split; [done|].
  rewrite Hconf, Hsup, Hl.
  destruct (support_triple_le_pair x y z transactions) as (L1 & L2' & L3').
  destruct Hdir as [[-> _]|[[-> _]|[-> _]]].
  - rewrite (proj1 (pair_sup_lookup0 _ _ _ _ Hxy)). by apply confidence_facts; [lia|].
  - rewrite (proj1 (pair_sup_lookup0 _ _ _ _ Hxz)). by apply confidence_facts; [lia|].
  - rewrite (proj1 (pair_sup_lookup0 _ _ _ _ Hyz)). by apply confidence_facts; [lia|].
Qed.

(** The rules returned: each list is a prefix of the full ranking of the
    emitted rules (two per frequent pair, three per frequent triple), cut
    by the slice [rules[:TOP_K]]. For a non-negative [TOP_K] the prefix has
    [min(TOP_K, n)] rules; for a negative one the last [|TOP_K|] rules of
    the ranking are dropped. *)
Theorem pipeline_rule_counts (ms tk : Z) (transactions : list (gset nat)) d e :
  pipeline ms tk transactions = Some (d, e) ->
  let item_sup := (apriori_L1 ms transactions).1 in
  let pair_sup := (apriori_L2 ms transactions (apriori_L1 ms transactions).2).1 in
  let L2 := (apriori_L2 ms transactions (apriori_L1 ms transactions).2).2 in
  let triple_sup := (apriori_L3 ms transactions (apriori_C3_from_L2 L2)).1 in
  let L3 := (apriori_L3 ms transactions (apriori_C3_from_L2 L2)).2 in
  exists rd re dropped_d dropped_e,
    rules_d item_sup pair_sup (elements L2) = Some rd /\
    rules_e pair_sup triple_sup (elements L3) = Some re /\
    length rd = 2 * size L2 /\ length re = 3 * size L3 /\
    isort rule_leb_d rd = d ++ dropped_d /\ isort rule_leb_e re = e ++ dropped_e /\
    length d = (if (0 <=? tk)%Z then Nat.min (Z.to_nat tk) (2 * size L2)
                else 2 * size L2 - Z.to_nat (- tk)) /\
    length e = (if (0 <=? tk)%Z then Nat.min (Z.to_nat tk) (3 * size L3)
                else 3 * size L3 - Z.to_nat (- tk)).
Proof.
  intros H item_sup pair_sup L2 triple_sup L3.
  destruct (pipeline_inv _ _ _ _ _ H) as (rd & re & Hrd & -> & Hre & ->).
  destruct (py_take_prefix tk (isort rule_leb_d rd)) as [dropped_d Hd].
  destruct (py_take_prefix tk (isort rule_leb_e re)) as [dropped_e He].
  pose proof (rules_d_length _ _ _ _ Hrd) as Hld.
  pose proof (rules_e_length _ _ _ _ Hre) as Hle.
  exists rd, re, dropped_d, dropped_e.
  split; [exact Hrd|]. split; [exact Hre|].
  split; [rewrite Hld; reflexivity|]. split; [rewrite Hle; reflexivity|].
  split; [exact Hd|]. split; [exact He|].
  rewrite !length_py_take, (Permutation_length (isort_perm rule_leb_d rd)),
    (Permutation_length (isort_perm rule_leb_e re)), Hld, Hle.
  done.
Qed.

(* ------------------------------------------------------------------ *)
(** ** Order of the transactions *)

Lemma support_item_perm x (transactions transactions' : list (gset nat)) :
  Permutation transactions transactions' ->
  support_item x transactions = support_item x transactions'.
Proof. intros Hp. unfold support_item. by apply filter_length_perm. Qed.

Lemma support_pair_perm p (transactions transactions' : list (gset nat)) :
  Permutation transactions transactions' ->
  support_pair p transactions = support_pair p transactions'.
Proof. intros Hp. unfold support_pair. by apply filter_length_perm. Qed.

Lemma support_triple_perm tri (transactions transactions' : list (gset nat)) :
  Permutation transactions transactions' ->
  support_triple tri transactions = support_triple tri transactions'.
Proof. intros Hp. unfold support_triple. by apply filter_length_perm. Qed.

Lemma gmap_nat_eq {K} `{Countable K} (m1 m2 : gmap K nat) :
  (forall k, is_Some (m1 !! k) <-> is_Some (m2 !! k)) ->
  (forall k c1 c2, m1 !! k = Some c1 -> m2 !! k = Some c2 -> c1 = c2) ->
  m1 = m2.
Proof.
  intros Hk Hv. apply map_eq. intros k.
  destruct (m1 !! k) as [c1|] eqn:E1, (m2 !! k) as [c2|] eqn:E2.
  - f_equal. eauto.
  - destruct (proj1 (Hk k) ltac:(rewrite E1; eauto)) as [? Hc]. congruence.
  - destruct (proj2 (Hk k) ltac:(rewrite E2; eauto)) as [? Hc]. congruence.
  - done.
Qed.

Lemma item_sup_is_Some ms transactions x :
  is_Some ((apriori_L1 ms transactions).1 !! x) <-> 0 < support_item x transactions.
Proof.
  rewrite <- (item_sup_lookup0 ms). unfold lookup0. split.
  - intros [c Hc]. rewrite Hc. simpl. by apply item_sup_value in Hc as [-> ?].
  - destruct ((apriori_L1 ms transactions).1 !! x); simpl; [eauto|lia].
Qed.

Lemma apriori_L1_perm ms (transactions transactions' : list (gset nat)) :
  Permutation transactions transactions' ->
  apriori_L1 ms transactions = apriori_L1 ms transactions'.
Proof.
  intros Hp.
  assert (Hsup : (apriori_L1 ms transactions).1 = (apriori_L1 ms transactions').1).
  { apply gmap_nat_eq.
    - intros x. rewrite !item_sup_is_Some. by rewrite (support_item_perm x _ _ Hp).
    - intros x c1 c2 [-> _]%item_sup_value [-> _]%item_sup_value.
      by apply support_item_perm. }
  change (apriori_L1 ms transactions) with
    ((apriori_L1 ms transactions).1,
     sorted (map_to_list (filter (fun xc : nat * nat => frequent ms xc.2 = true)
        (apriori_L1 ms transactions).1)).*1).
  change (apriori_L1 ms transactions') with
    ((apriori_L1 ms transactions').1,
     sorted (map_to_list (filter (fun xc : nat * nat => frequent ms xc.2 = true)
        (apriori_L1 ms transactions').1)).*1).
  by rewrite Hsup.
Qed.

Lemma count_pairs_perm L1 (transactions transactions' : list (gset nat)) :
  Permutation transactions transactions' ->
  count_pairs L1 transactions = count_pairs L1 transactions'.
Proof.
  intros Hp. apply gmap_nat_eq.
  - intros [a b]. rewrite !count_pairs_key. split.
    + intros (? & ? & t & Ht & ?). split; [done|]. split; [done|].
      exists t. split; [|done]. by apply (Permutation_in _ Hp).
    + intros (? & ? & t & Ht & ?). split; [done|]. split; [done|].
      exists t. split; [|done]. by apply (Permutation_in _ (Permutation_sym Hp)).
  - intros [a b] c1 c2 [-> _]%count_pairs_value [-> _]%count_pairs_value.
    by apply support_pair_perm.
Qed.

Lemma count_triples_perm C3 (transactions transactions' : list (gset nat)) :
  Permutation transactions transactions' ->
  (count_triples C3 transactions).1 = (count_triples C3 transactions').1.
Proof.
  intros Hp. apply gmap_nat_eq.
  - intros [[x y] z]. rewrite !count_triples_key. split.
    + intros (? & ? & ? & t & Ht & ?). do 3 (split; [done|]).
      exists t. split; [|done]. by apply (Permutation_in _ Hp).
    + intros (? & ? & ? & t & Ht & ?). do 3 (split; [done|]).
      exists t. split; [|done]. by apply (Permutation_in _ (Permutation_sym Hp)).
  - intros [[x y] z] c1 c2 [-> _]%count_triples_value [-> _]%count_triples_value.
    by apply support_triple_perm.
Qed.

Lemma apriori_L2_perm ms L1 (transactions transactions' : list (gset nat)) :
  Permutation transactions transactions' ->
  apriori_L2 ms transactions L1 = apriori_L2 ms transactions' L1.
Proof. intros Hp. unfold apriori_L2. by rewrite (count_pairs_perm L1 _ _ Hp). Qed.

Lemma apriori_L3_perm ms C3 (transactions transactions' : list (gset nat)) :
  Permutation transactions transactions' ->
  apriori_L3 ms transactions C3 = apriori_L3 ms transactions' C3.
Proof.
  intros Hp. destruct (decide (C3 = ∅)) as [->|Hne].
  - unfold apriori_L3. by rewrite !apriori_L3_empty.
  - rewrite !apriori_L3_nonempty by done. by rewrite (count_triples_perm C3 _ _ Hp).
Qed.

(** The pipeline does not depend on the order of the transactions: any
    reordering of the input list gives the same item supports and [L1], the
    same pair supports and [L2], the same triple supports and [L3], and the
    same two rule lists. *)
Theorem pipeline_perm (ms tk : Z) (transactions transactions' : list (gset nat)) :
  Permutation transactions transactions' ->
  apriori_L1 ms transactions = apriori_L1 ms transactions' /\
  (forall L1, apriori_L2 ms transactions L1 = apriori_L2 ms transactions' L1) /\
  (forall C3, apriori_L3 ms transactions C3 = apriori_L3 ms transactions' C3) /\
  pipeline ms tk transactions = pipeline ms tk transactions'.
Proof.
  intros Hp. split; [by apply apriori_L1_perm|].
  split; [intros L1; by apply apriori_L2_perm|].
  split; [intros C3; by apply apriori_L3_perm|].
  unfold pipeline. rewrite (apriori_L1_perm ms _ _ Hp).
  destruct (apriori_L1 ms transactions') as [item_sup L1].
  rewrite (apriori_L2_perm ms L1 _ _ Hp).
  destruct (apriori_L2 ms transactions' L1) as [pair_sup L2].
  by rewrite (apriori_L3_perm ms (apriori_C3_from_L2 L2) _ _ Hp).
Qed.

(* ------------------------------------------------------------------ *)
(** ** Instances *)

Lemma load_transactions_app_witness :
  last [97%N; 10%N] = Some 10%N /\
  load_transactions ([97%N; 10%N] ++ [98%N; 13%N; 99%N])
  = load_transactions [97%N; 10%N] ++ load_transactions [98%N; 13%N; 99%N].
Proof. split; [reflexivity|]. apply load_transactions_app. reflexivity. Defined.

Lemma load_transactions_render_witness :
  ([13%N; 10%N] = [10%N] \/ [13%N; 10%N] = [13%N; 10%N] \/ [13%N; 10%N] = [13%N]) /\
  Forall (fun row => row <> [] /\
    Forall (fun w => w <> [] /\ Forall (fun c => py_isspace c = false) w) row)
    [[[97%N]; [98%N; 99%N]]; [[100%N]]] /\
  load_transactions (render_transactions [13%N; 10%N] [[[97%N]; [98%N; 99%N]]; [[100%N]]])
  = map list_to_set [[[97%N]; [98%N; 99%N]]; [[100%N]]].
Proof.
  assert (Heol : [13%N; 10%N] = [10%N] \/ [13%N; 10%N] = [13%N; 10%N] \/
                 [13%N; 10%N] = [13%N]) by (right; left; reflexivity).
  assert (Hrows : Forall (fun row => row <> [] /\
    Forall (fun w => w <> [] /\ Forall (fun c => py_isspace c = false) w) row)
    [[[97%N]; [98%N; 99%N]]; [[100%N]]])
    by (repeat first [discriminate | reflexivity | constructor]).
  split; [exact Heol|]. split; [exact Hrows|].
  apply load_transactions_render; [exact Heol | exact Hrows].
Defined.

Lemma threshold_monotone_witness :
  (1 <= 3)%Z /\
  (forall x, In x (apriori_L1 3 scenario).2 -> In x (apriori_L1 1 scenario).2) /\
  (forall p, p ∈ (apriori_L2 3 scenario (apriori_L1 3 scenario).2).2 ->
             p ∈ (apriori_L2 1 scenario (apriori_L1 1 scenario).2).2) /\
  (forall tri,
     tri ∈ (apriori_L3 3 scenario (apriori_C3_from_L2
              (apriori_L2 3 scenario (apriori_L1 3 scenario).2).2)).2 ->
     tri ∈ (apriori_L3 1 scenario (apriori_C3_from_L2
              (apriori_L2 1 scenario (apriori_L1 1 scenario).2).2)).2).
Proof. split; [lia|]. apply threshold_monotone. lia. Defined.

Lemma pipeline_rules_d_witness :
  exists d e, pipeline 2 5 scenario = Some (d, e) /\
  forall r, In r d ->
  exists a b, (a, b) ∈ (apriori_L2 2 scenario (apriori_L1 2 scenario).2).2 /\
    ((lhs_d r = a /\ rhs_d r = b) \/ (lhs_d r = b /\ rhs_d r = a)) /\
    sup_d r = support_pair (a, b) scenario /\
    (conf_d r * inject_Z (Z.of_nat (support_item (lhs_d r) scenario))
       == inject_Z (Z.of_nat (sup_d r)))%Q /\
    (0 < conf_d r)%Q /\ (conf_d r <= 1)%Q.
Proof.
  eexists _, _. split; [vm_compute; reflexivity|].
  eapply (pipeline_rules_d 2 5 scenario). vm_compute. reflexivity.
Defined.

Lemma pipeline_rules_e_witness :
  exists d e, pipeline 2 5 scenario = Some (d, e) /\
  forall r, In r e ->
  exists x y z,
    (x, y, z) ∈ (apriori_L3 2 scenario (apriori_C3_from_L2
                   (apriori_L2 2 scenario (apriori_L1 2 scenario).2).2)).2 /\
    ((lhs_e r = (x, y) /\ rhs_e r = z) \/ (lhs_e r = (x, z) /\ rhs_e r = y) \/
     (lhs_e r = (y, z) /\ rhs_e r = x)) /\
    sup_e r = support_triple (x, y, z) scenario /\
    (conf_e r * inject_Z (Z.of_nat (support_pair (lhs_e r) scenario))
       == inject_Z (Z.of_nat (sup_e r)))%Q /\
    (0 < conf_e r)%Q /\ (conf_e r <= 1)%Q.
Proof.
  eexists _, _. split; [vm_compute; reflexivity|].
  eapply (pipeline_rules_e 2 5 scenario). vm_compute. reflexivity.
Defined.

Lemma pipeline_rule_counts_witness :
  exists d e, pipeline 2 (-1) scenario = Some (d, e) /\
  let item_sup := (apriori_L1 2 scenario).1 in
  let pair_sup := (apriori_L2 2 scenario (apriori_L1 2 scenario).2).1 in
  let L2 := (apriori_L2 2 scenario (apriori_L1 2 scenario).2).2 in
  let triple_sup := (apriori_L3 2 scenario (apriori_C3_from_L2 L2)).1 in
  let L3 := (apriori_L3 2 scenario (apriori_C3_from_L2 L2)).2 in
  exists rd re dropped_d dropped_e,
    rules_d item_sup pair_sup (elements L2) = Some rd /\
    rules_e pair_sup triple_sup (elements L3) = Some re /\
    length rd = 2 * size L2 /\ length re = 3 * size L3 /\
    isort rule_leb_d rd = d ++ dropped_d /\ isort rule_leb_e re = e ++ dropped_e /\
    length d = (if (0 <=? -1)%Z then Nat.min (Z.to_nat (-1)) (2 * size L2)
                else 2 * size L2 - Z.to_nat (- -1)) /\
    length e = (if (0 <=? -1)%Z then Nat.min (Z.to_nat (-1)) (3 * size L3)
                else 3 * size L3 - Z.to_nat (- -1)).
Proof.
  eexists _, _. split; [vm_compute; reflexivity|].
  apply (pipeline_rule_counts 2 (-1) scenario). vm_compute. reflexivity.
Defined.

Lemma pipeline_perm_witness :
  Permutation scenario (rev scenario) /\
  apriori_L1 2 scenario = apriori_L1 2 (rev scenario) /\
  (forall L1, apriori_L2 2 scenario L1 = apriori_L2 2 (rev scenario) L1) /\
  (forall C3, apriori_L3 2 scenario C3 = apriori_L3 2 (rev scenario) C3) /\
  pipeline 2 5 scenario = pipeline 2 5 (rev scenario).
Proof.
  assert (Hp : Permutation scenario (rev scenario)) by (apply Permutation_rev).
  split; [exact Hp|]. apply pipeline_perm. exact Hp.
Defined.
